(** * periodicx: a shallow embedding of [PeriodicExecutor] and [periodicx]

    The development follows [periodicx.py].  Times are doubles, as
    [time.time()] returns them: a finite double is a whole number of units
    of 2^-1074 with at most 53 significant bits, and a time is given by that
    whole number, so that [<] on times is [<] on [Z] and [+] on times is the
    sum rounded to the nearest double ([fadd]).  The wall clock, the user
    callable and asynchronous cancellation requests are the environment of
    the program; they appear as oracles:

    - [clock p n] is the value returned by the [n]-th call of [time.time()]
      in the process;
    - [func e n] says whether the [n]-th call of the user callable returns
      or raises (how long it runs shows in the clock readings that follow);
    - [interrupts e n] says whether [cancel()] is called on the executor,
      from a signal handler or from another thread, while the executor is
      blocked in its [n]-th [_sleep].

    Every method is a computation in a state-and-exception monad over the
    pair of the process-wide state and the attributes of [self].  The
    loops of the program, the catch-up loop of [_single] and the loop of
    [sched.scheduler.run], take fuel; an exhausted budget is the outcome
    [OutOfFuel], which still carries the state reached so far.

    The steps of the program are taken one after the other.  The
    background thread of a non-blocking run makes its turns of the
    scheduler loop when the environment lets it ([background]) and when it
    is joined; a call of [cancel] that arrives while the loop sleeps takes
    effect inside that [_sleep].  [Event.wait] is taken to return (its
    timeout is in range and no [KeyboardInterrupt] reaches it), and sums of
    times are taken to stay below the largest double. *)

From Stdlib Require Import ZArith List Bool Lia.
From stdpp Require Import base option list gmap.
Import ListNotations.
Local Open Scope Z_scope.

(** ** Times: the doubles and their addition *)

(** [int.bit_length] *)
Definition bit_length (z : Z) : Z := Z.log2 (Z.abs z) + 1.

(** The spacing of the doubles at [z]: the doubles with the bit length of
    [z] are the multiples of [ulp z]. *)
Definition ulp (z : Z) : Z := 2 ^ Z.max 0 (bit_length z - 53).

(** The multiple of [u] nearest to [a], the even one of two that are as
    near. *)
Definition nearest_even (a u : Z) : Z :=
  let q := a / u in
  let r := a mod u in
  if 2 * r <? u then q * u
  else if u <? 2 * r then (q + 1) * u
  else if Z.even q then q * u else (q + 1) * u.

(** Rounding to the nearest double, ties to even. *)
Definition nearest_double (z : Z) : Z := Z.sgn z * nearest_even (Z.abs z) (ulp z).

Definition representable (z : Z) : Prop := nearest_double z = z.

(** [x + y] and [x - y] on doubles. *)
Definition fadd (x y : Z) : Z := nearest_double (x + y).
Definition fsub (x y : Z) : Z := nearest_double (x - y).

(** [x += p], [k] times. *)
Fixpoint fadd_n (x p : Z) (k : nat) : Z :=
  match k with
  | O => x
  | S k' => fadd (fadd_n x p k') p
  end.

(** The double [m * 2^e]. *)
Definition double (m e : Z) : Z := m * 2 ^ (e + 1074).

(** ** Outcomes and traces *)

Inductive exn :=
| ValueError      (* list.remove(x): x not in list; signal.signal off the main thread *)
| RuntimeError    (* Thread.join(): cannot join current thread *)
| CallableError.  (* whatever the user callable raises *)

Inductive outcome (A : Type) :=
| Ok (a : A)
| Raise (e : exn)
| OutOfFuel.
Arguments Ok {A} a.
Arguments Raise {A} e.
Arguments OutOfFuel {A}.

(** What the user callable does when it is called. *)
Inductive behaviour := Returns | Raises.

(** Observable actions of one executor, recorded newest first. *)
Inductive action :=
| ATime (now : Z)         (* time.time() returned [now] *)
| AInvoke (nominal : Z)   (* self.func(...) called while _next_time = nominal *)
| ASleep (seconds : Z)    (* self._sleep(seconds) *)
| AStart (tid : nat).     (* Thread(target=self._scheduler.run).start() *)

Definition is_invoke (a : action) : bool :=
  match a with AInvoke _ => true | _ => false end.
Definition is_sleep (a : action) : bool :=
  match a with ASleep _ => true | _ => false end.
Definition is_start (a : action) : bool :=
  match a with AStart _ => true | _ => false end.

Fixpoint count_actions (f : action -> bool) (tr : list action) : nat :=
  match tr with
  | [] => O
  | a :: tr' => if f a then S (count_actions f tr') else count_actions f tr'
  end.

(** ** The scheduler of the standard library, as the executor uses it

    [sched.scheduler] keeps a heap of events ordered by time, priority and
    a sequence number; the action of every event here is [self._single]. *)

Record Event := mkEvent { time : Z; priority : Z; sequence : nat }.

#[global] Instance Event_eq_dec : EqDecision Event.
Proof. solve_decision. Defined.

Definition event_ltb (a b : Event) : bool :=
  (time a <? time b)
  || ((time a =? time b)
      && ((priority a <? priority b)
          || ((priority a =? priority b) && (sequence a <? sequence b)%nat))).

(** [heapq.heappush], on the heap kept as a sorted list: [q[0]] is its head. *)
Fixpoint heappush (ev : Event) (q : list Event) : list Event :=
  match q with
  | [] => [ev]
  | x :: q' => if event_ltb ev x then ev :: q else x :: heappush ev q'
  end.

(** [list.remove]: [None] stands for its [ValueError]. *)
Fixpoint queue_remove (ev : Event) (q : list Event) : option (list Event) :=
  match q with
  | [] => None
  | x :: q' => if decide (x = ev) then Some q' else (x ::.) <$> queue_remove ev q'
  end.

Record Scheduler := mkScheduler {
  _queue : list Event;
  _sequence_generator : nat
}.

(** ** State *)

Record Thread := mkThread { ident : nat; is_alive : bool }.

(** Who executes a call. *)
Inductive caller := MainThread | Worker (tid : nat).

(** Process-wide state.  [_sleep_event] is the [Event()] of line 29: it is
    created once, when the class body runs, and no instance ever assigns
    the attribute, so [self._sleep_event] is this one object for every
    instance.  [sigint] is the disposition of SIGINT. *)
Record Process := mkProcess {
  clock : nat -> Z;
  reads : nat;
  _sleep_event : bool;
  sigint : option nat
}.

Record Executor := mkExecutor {
  func : nat -> behaviour;
  period : Z;
  skip_missed : bool;
  _next_time : Z;
  _next_event : option Event;
  _cancelled : bool;
  _thread : option Thread;
  _scheduler : Scheduler;
  trace : list action;
  interrupts : nat -> bool
}.

Record St := mkSt { proc : Process; me : Executor }.

Definition invocations (e : Executor) : nat := count_actions is_invoke (trace e).
Definition sleeps (e : Executor) : nat := count_actions is_sleep (trace e).
Definition threads_started (e : Executor) : nat := count_actions is_start (trace e).

Definition with_reads (r : nat) (p : Process) : Process :=
  mkProcess (clock p) r (_sleep_event p) (sigint p).
Definition with_sleep_event (b : bool) (p : Process) : Process :=
  mkProcess (clock p) (reads p) b (sigint p).
Definition with_sigint (h : option nat) (p : Process) : Process :=
  mkProcess (clock p) (reads p) (_sleep_event p) h.

Definition with_next_time (t : Z) (e : Executor) : Executor :=
  mkExecutor (func e) (period e) (skip_missed e) t (_next_event e)
    (_cancelled e) (_thread e) (_scheduler e) (trace e) (interrupts e).
Definition with_next_event (ev : option Event) (e : Executor) : Executor :=
  mkExecutor (func e) (period e) (skip_missed e) (_next_time e) ev
    (_cancelled e) (_thread e) (_scheduler e) (trace e) (interrupts e).
Definition with_cancelled (b : bool) (e : Executor) : Executor :=
  mkExecutor (func e) (period e) (skip_missed e) (_next_time e) (_next_event e)
    b (_thread e) (_scheduler e) (trace e) (interrupts e).
Definition with_thread (t : option Thread) (e : Executor) : Executor :=
  mkExecutor (func e) (period e) (skip_missed e) (_next_time e) (_next_event e)
    (_cancelled e) t (_scheduler e) (trace e) (interrupts e).
Definition with_scheduler (sc : Scheduler) (e : Executor) : Executor :=
  mkExecutor (func e) (period e) (skip_missed e) (_next_time e) (_next_event e)
    (_cancelled e) (_thread e) sc (trace e) (interrupts e).
Definition with_trace (tr : list action) (e : Executor) : Executor :=
  mkExecutor (func e) (period e) (skip_missed e) (_next_time e) (_next_event e)
    (_cancelled e) (_thread e) (_scheduler e) tr (interrupts e).

(** ** The monad of methods *)

Definition M (A : Type) : Type := St -> outcome A * St.

#[global] Instance M_ret : MRet M := fun A a s => (Ok a, s).
#[global] Instance M_bind : MBind M := fun A B f m s =>
  match m s with
  | (Ok a, s') => f a s'
  | (Raise e, s') => (Raise e, s')
  | (OutOfFuel, s') => (OutOfFuel, s')
  end.

Definition raise {A} (e : exn) : M A := fun s => (Raise e, s).
Definition out_of_fuel {A} : M A := fun s => (OutOfFuel, s).
Definition gets {A} (f : Executor -> A) : M A := fun s => (Ok (f (me s)), s).
Definition modify (f : Executor -> Executor) : M unit :=
  fun s => (Ok tt, mkSt (proc s) (f (me s))).
Definition modify_proc (f : Process -> Process) : M unit :=
  fun s => (Ok tt, mkSt (f (proc s)) (me s)).
Definition log (a : action) : M unit :=
  modify (fun e => with_trace (a :: trace e) e).

(** [try: m except ValueError: pass] *)
Definition ignoring_ValueError (m : M unit) : M unit := fun s =>
  match m s with
  | (Raise ValueError, s') => (Ok tt, s')
  | r => r
  end.

(** ** Library calls *)

(** [time.time()] *)
Definition time_time : M Z := fun s =>
  let now := clock (proc s) (reads (proc s)) in
  (Ok now, mkSt (with_reads (S (reads (proc s))) (proc s))
                (with_trace (ATime now :: trace (me s)) (me s))).

(** [self._scheduler.enterabs(t, prio, self._single)] *)
Definition enterabs (t : Z) (prio : Z) : M Event :=
  sc ← gets _scheduler;
  let ev := mkEvent t prio (_sequence_generator sc) in
  modify (with_scheduler
            (mkScheduler (heappush ev (_queue sc)) (S (_sequence_generator sc))));;
  mret ev.

(** [self._scheduler.cancel(ev)] *)
Definition scheduler_cancel (ev : Event) : M unit :=
  sc ← gets _scheduler;
  match queue_remove ev (_queue sc) with
  | Some q' => modify (with_scheduler (mkScheduler q' (_sequence_generator sc)))
  | None => raise ValueError
  end.

(** ** Methods of [PeriodicExecutor] *)

(** Lines 78 to 87 of [cancel]: everything but the join. *)
Definition cancel_requested : M unit :=
  modify (with_cancelled true);;
  ne ← gets _next_event;
  (match ne with
   | Some ev => ignoring_ValueError (scheduler_cancel ev)
   | None => mret tt
   end : M unit);;
  modify_proc (with_sleep_event true).

(** [self._sleep_event.wait(timeout)]: while the thread is blocked the
    environment may call [cancel]; the join of that call takes place in the
    calling thread and does not touch the attributes. *)
Definition event_wait (k : nat) : M unit :=
  i ← gets interrupts;
  if (i : nat -> bool) k then cancel_requested else mret tt.

Definition _sleep (seconds : Z) : M unit :=
  k ← gets sleeps;
  log (ASleep seconds);;
  modify_proc (with_sleep_event false);;
  event_wait k.

(** [self.func( *self.args, **self.kwargs)] *)
Definition call_func : M unit :=
  f ← gets func;
  k ← gets invocations;
  nominal ← gets _next_time;
  log (AInvoke nominal);;
  match (f : nat -> behaviour) k with
  | Returns => mret tt
  | Raises => raise CallableError
  end.

(** [self._next_time += self.period] *)
Definition advance : M unit :=
  nt ← gets _next_time;
  p ← gets period;
  modify (with_next_time (fadd nt p)).

(** [while self._next_time < time.time(): self._next_time += self.period] *)
Fixpoint skip_missed_loop (fuel : nat) : M unit :=
  match fuel with
  | O => out_of_fuel
  | S fuel' =>
      nt ← gets _next_time;
      now ← time_time;
      if nt <? now then advance;; skip_missed_loop fuel' else mret tt
  end.

Definition _single (fuel : nat) : M unit :=
  c ← gets _cancelled;
  if (c : bool) then mret tt
  else
    call_func;;
    advance;;
    sm ← gets skip_missed;
    (if (sm : bool) then skip_missed_loop fuel else mret tt : M unit);;
    nt' ← gets _next_time;
    ev ← enterabs nt' 1;
    modify (with_next_event (Some ev)).

(** [sched.scheduler.run()] with [timefunc = time.time] and
    [delayfunc = self._sleep]; [n] bounds the number of iterations. *)
Fixpoint scheduler_run (fuel n : nat) : M unit :=
  match n with
  | O => out_of_fuel
  | S n' =>
      sc ← gets _scheduler;
      match _queue (sc : Scheduler) with
      | [] => mret tt
      | ev :: q' =>
          now ← time_time;
          if now <? time ev then
            _sleep (fsub (time ev) now);;
            scheduler_run fuel n'
          else
            modify (with_scheduler (mkScheduler q' (_sequence_generator sc)));;
            _single fuel;;
            _sleep 0;;
            scheduler_run fuel n'
      end
  end.

(** The body of a background thread: it ends when [scheduler.run] returns
    or raises; an exception ends the thread and goes no further. *)
Definition mark_dead (e : Executor) : Executor :=
  match _thread e with
  | Some t => with_thread (Some (mkThread (ident t) false)) e
  | None => e
  end.

Definition thread_body (fuel n : nat) : M unit := fun s =>
  match scheduler_run fuel n s with
  | (OutOfFuel, s') => (OutOfFuel, s')
  | (_, s') => (Ok tt, mkSt (proc s') (mark_dead (me s')))
  end.

(** [self._thread = Thread(target=self._scheduler.run); self._thread.start()] *)
Definition thread_start : M unit :=
  tid ← gets threads_started;
  modify (with_thread (Some (mkThread tid true)));;
  log (AStart tid).

(** [self._thread.join()], called by [who]: joining the current thread is
    a [RuntimeError]; otherwise the call returns once the thread has run
    to its end. *)
Definition thread_join (who : caller) (t : Thread) (fuel n : nat) : M unit :=
  match who with
  | Worker tid =>
      if decide (tid = ident t) then raise RuntimeError
      else if is_alive t then thread_body fuel n else mret tt
  | MainThread => if is_alive t then thread_body fuel n else mret tt
  end.

(** The environment lets the background thread run for [n] iterations. *)
Definition background (fuel n : nat) : M unit :=
  th ← gets _thread;
  match th with
  | Some t => if is_alive t then thread_body fuel n else mret tt
  | None => mret tt
  end.

(** [signal.signal(signal.SIGINT, self._signal_handler)], called by [who]:
    outside the main thread it is a [ValueError]. *)
Definition signal_signal (who : caller) (self : nat) : M unit :=
  match who with
  | MainThread => modify_proc (with_sigint (Some self))
  | Worker _ => raise ValueError
  end.

Definition __init__ (who : caller) (self : nat) (f : nat -> behaviour) (per : Z)
    (handle_sigint skip : bool) (intr : nat -> bool) (p : Process)
  : outcome unit * St :=
  let e := mkExecutor f per skip 0 None false None (mkScheduler [] O) [] intr in
  (if handle_sigint then signal_signal who self else mret tt) (mkSt p e).

Definition run (delay : option Z) (blocking : bool) (fuel n : nat) : M unit :=
  modify (with_cancelled false);;
  (match delay with
   | None =>
       now ← time_time;
       modify (with_next_time now);;
       _single fuel
   | Some d =>
       now ← time_time;
       modify (with_next_time (fadd now d));;
       nt ← gets _next_time;
       ev ← enterabs nt 1;
       modify (with_next_event (Some ev))
   end : M unit);;
  if blocking then scheduler_run fuel n else thread_start.

Definition cancel (who : caller) (fuel n : nat) : M unit :=
  cancel_requested;;
  th ← gets _thread;
  match th with
  | Some t => thread_join who t fuel n
  | None => mret tt
  end.

Definition SIGINT : Z := 2.

Definition _signal_handler (signum : Z) (fuel n : nat) : M unit :=
  if signum =? SIGINT then cancel MainThread fuel n else mret tt.

(** ** Several instances in one process *)

Record World := mkWorld { process : Process; heap : gmap nat Executor }.

(** A method call [obj.m(...)] on the instance stored at [self]. *)
Definition call {A} (self : nat) (m : M A) (w : World) : option (outcome A * World) :=
  e ← heap w !! self;
  let r := m (mkSt (process w) e) in
  Some (fst r, mkWorld (proc (snd r)) (<[self := me (snd r)]> (heap w))).

(** [PeriodicExecutor(func, period, ...)]: a new object. *)
Definition new (who : caller) (f : nat -> behaviour) (per : Z)
    (handle_sigint skip : bool) (intr : nat -> bool) (w : World)
  : outcome nat * World :=
  let self := fresh (dom (heap w)) in
  let r := __init__ who self f per handle_sigint skip intr (process w) in
  let w' := mkWorld (proc (snd r)) (<[self := me (snd r)]> (heap w)) in
  match fst r with
  | Ok _ => (Ok self, w')
  | Raise e => (Raise e, w')
  | OutOfFuel => (OutOfFuel, w')
  end.

Definition periodicx (who : caller) (f : nat -> behaviour) (per : Z)
    (delay : option Z) (blocking handle_sigint skip : bool) (intr : nat -> bool)
    (fuel n : nat) (w : World) : outcome (option nat) * World :=
  match new who f per handle_sigint skip intr w with
  | (Ok executor, w1) =>
      match call executor (run delay blocking fuel n) w1 with
      | Some (Ok _, w2) => (Ok (if negb blocking then Some executor else None), w2)
      | Some (Raise e, w2) => (Raise e, w2)
      | Some (OutOfFuel, w2) => (OutOfFuel, w2)
      | None => (OutOfFuel, w1)   (* no such object: [new] has just stored it *)
      end
  | (Raise e, w1) => (Raise e, w1)
  | (OutOfFuel, w1) => (OutOfFuel, w1)
  end.

(** A process in which no executor exists yet. *)
Definition boot (clk : nat -> Z) : World :=
  mkWorld (mkProcess clk O false None) ∅.


(** ** Steps of a started executor

    Everything that can happen to an executor apart from a call of [run]:
    calls of [cancel], deliveries of a signal, progress of the background
    thread, and the private methods on their own. *)

Inductive op :=
| OpCancel (who : caller) (fuel n : nat)
| OpSignal (signum : Z) (fuel n : nat)
| OpBackground (fuel n : nat)
| OpSchedulerRun (fuel n : nat)
| OpSingle (fuel : nat)
| OpSleep (seconds : Z).

Definition exec (o : op) : M unit :=
  match o with
  | OpCancel who fuel n => cancel who fuel n
  | OpSignal signum fuel n => _signal_handler signum fuel n
  | OpBackground fuel n => background fuel n
  | OpSchedulerRun fuel n => scheduler_run fuel n
  | OpSingle fuel => _single fuel
  | OpSleep seconds => _sleep seconds
  end.

Fixpoint exec_all (ops : list op) (s : St) : St :=
  match ops with
  | [] => s
  | o :: ops' => exec_all ops' (snd (exec o s))
  end.

(** ** Predicates on times and traces *)

(** [t] is on the grid [t0 + k * p], [k = 0, 1, 2, ...]. *)
Definition on_grid (t0 p t : Z) : Prop := ∃ k : nat, t = t0 + Z.of_nat k * p.

(** [t] is reached from [t0] by adding [p] some number of times, as the
    program adds. *)
Definition reached (t0 p t : Z) : Prop := ∃ k : nat, t = fadd_n t0 p k.



(** ** Relations between the states before and after a computation *)

(** Every run of [m] relates the state it starts in to the state it ends
    in, whatever its outcome. *)
Definition preserves (R : relation St) {A} (m : M A) : Prop :=
  ∀ s, R s (snd (m s)).

(** The state changes the primitives make. *)
Class Respects (R : relation St) : Prop := {
  respects_proc : ∀ s f,
    clock (f (proc s)) = clock (proc s) → R s (mkSt (f (proc s)) (me s));
  respects_time : ∀ s, R s (snd (time_time s));
  respects_log : ∀ s a,
    is_invoke a = false →
    R s (mkSt (proc s) (with_trace (a :: trace (me s)) (me s)));
  respects_scheduler : ∀ s sc, R s (mkSt (proc s) (with_scheduler sc (me s)));
  respects_next_event : ∀ s ev, R s (mkSt (proc s) (with_next_event ev (me s)));
  respects_thread : ∀ s t, R s (mkSt (proc s) (with_thread t (me s)));
  respects_cancelled : ∀ s, R s (mkSt (proc s) (with_cancelled true (me s)));
  respects_advance : ∀ s, R s (snd (advance s));
  respects_call : ∀ s, _cancelled (me s) = false → R s (snd (call_func s))
}.

(** ** Relations, closed forms and scenarios of the proofs *)

(** While the flag is set, a step leaves it set and calls nothing. *)
Definition stays_cancelled : relation St := λ s s',
  _cancelled (me s) = true →
  _cancelled (me s') = true ∧ invocations (me s') = invocations (me s).

(** A step moves the cursor by additions of the period, and calls the
    callable at nominal times reached in that way only. *)
Definition grid_step : relation St := λ s s',
  period (me s') = period (me s) ∧
  reached (_next_time (me s)) (period (me s)) (_next_time (me s')) ∧
  ∃ added, trace (me s') = added ++ trace (me s) ∧
    ∀ t, AInvoke t ∈ added → reached (_next_time (me s)) (period (me s)) t.

(** The state [cancel] leaves before it joins the thread. *)
Definition requested (s : St) : St :=
  let e := me s in
  let sc := _scheduler e in
  let sc' :=
    match _next_event e with
    | Some ev =>
        match queue_remove ev (_queue sc) with
        | Some q' => mkScheduler q' (_sequence_generator sc)
        | None => sc
        end
    | None => sc
    end in
  mkSt (with_sleep_event true (proc s)) (with_scheduler sc' (with_cancelled true e)).

(** The state of [run(delay=d)] once the first event is entered. *)
Definition scheduled (d : Z) (s : St) : St :=
  let e := me s in
  let now := clock (proc s) (reads (proc s)) in
  let sc := _scheduler e in
  let ev := mkEvent (fadd now d) 1 (_sequence_generator sc) in
  mkSt (with_reads (S (reads (proc s))) (proc s))
    (mkExecutor (func e) (period e) (skip_missed e) (fadd now d) (Some ev) false
       (_thread e)
       (mkScheduler (heappush ev (_queue sc)) (S (_sequence_generator sc)))
       (ATime now :: trace e) (interrupts e)).

(** The state after [Thread(...).start()]. *)
Definition started (s : St) : St :=
  let e := me s in
  let tid := threads_started e in
  mkSt (proc s)
    (with_trace (AStart tid :: trace e) (with_thread (Some (mkThread tid true)) e)).

(** A clock given by its first readings and the value it keeps after them. *)
Definition readings (l : list Z) (last : Z) : nat → Z := λ n, nth n l last.

Definition never : nat → bool := λ _, false.
Definition fine : nat → behaviour := λ _, Returns.

(** The executor [PeriodicExecutor(fine, 10)] right after its construction,
    at address [0] of a process with the given clock. *)
Definition idle (clk : nat → Z) : St :=
  snd (__init__ MainThread 0 fine 10 true true never (mkProcess clk O false None)).

(** Two executors in one process, at addresses [0] and [1]. *)
Definition two_executors : World :=
  snd (new MainThread fine 10 false true never
         (snd (new MainThread fine 10 false true never (boot (readings [] 0))))).

(** The readings number [r], ..., [r + k - 1] of the clock, newest first. *)
Fixpoint clock_reads (clk : nat → Z) (r k : nat) : list action :=
  match k with
  | O => []
  | S k' => ATime (clk (r + k')%nat) :: clock_reads clk r k'
  end.

(** The state the loop leaves after [k] additions, that is [k + 1] readings. *)
Definition skipped (k : nat) (s : St) : St :=
  mkSt (with_reads (reads (proc s) + S k) (proc s))
    (with_trace (clock_reads (clock (proc s)) (reads (proc s)) (S k) ++ trace (me s))
       (with_next_time (fadd_n (_next_time (me s)) (period (me s)) k) (me s))).

(** The state after the call of the callable and the first addition. *)
Definition called (s : St) : St :=
  mkSt (proc s)
    (with_next_time (fadd (_next_time (me s)) (period (me s)))
       (with_trace (AInvoke (_next_time (me s)) :: trace (me s)) (me s))).

(** The state after the next event is entered at the cursor. *)
Definition entered (s : St) : St :=
  let e := me s in
  let sc := _scheduler e in
  let ev := mkEvent (_next_time e) 1 (_sequence_generator sc) in
  mkSt (proc s)
    (with_next_event (Some ev)
       (with_scheduler
          (mkScheduler (heappush ev (_queue sc)) (S (_sequence_generator sc))) e)).

(** The first nominal time: the clock reading, plus the delay if any. *)
Definition first_time (delay : option Z) (now : Z) : Z :=
  match delay with None => now | Some d => fadd now d end.

(** The state of [run] once the flag is cleared and the cursor is set. *)
Definition armed (delay : option Z) (s : St) : St :=
  let now := clock (proc s) (reads (proc s)) in
  mkSt (with_reads (S (reads (proc s))) (proc s))
    (with_next_time (first_time delay now)
       (with_trace (ATime now :: trace (me s)) (with_cancelled false (me s)))).

(** What [run] does from there. *)
Definition first_run (delay : option Z) (blocking : bool) (fuel n : nat) : M unit :=
  (match delay with
   | None => _single fuel
   | Some _ =>
       nt ← gets _next_time;
       ev ← enterabs nt 1;
       modify (with_next_event (Some ev))
   end : M unit);;
  if blocking then scheduler_run fuel n else thread_start.

(** The state of the loop after [j] readings and [a] additions. *)
Definition looped (j a : nat) (s : St) : St :=
  mkSt (with_reads (reads (proc s) + j) (proc s))
    (with_trace (clock_reads (clock (proc s)) (reads (proc s)) j ++ trace (me s))
       (with_next_time (fadd_n (_next_time (me s)) (period (me s)) a) (me s))).

Definition extends : relation St := λ s s',
  ∃ added, trace (me s') = added ++ trace (me s).

(** The state in which [_sleep] starts to wait. *)
Definition asleep (seconds : Z) (s : St) : St :=
  mkSt (with_sleep_event false (proc s))
    (with_trace (ASleep seconds :: trace (me s)) (me s)).

(** The state after one reading of the clock. *)
Definition read_clock (s : St) : St :=
  mkSt (with_reads (S (reads (proc s))) (proc s))
    (with_trace (ATime (clock (proc s) (reads (proc s))) :: trace (me s)) (me s)).

(** The state after [heapq.heappop]. *)
Definition popped (q' : list Event) (s : St) : St :=
  mkSt (proc s)
    (with_scheduler (mkScheduler q' (_sequence_generator (_scheduler (me s)))) (me s)).




Definition keeps (I : St → Prop) {A} (m : M A) : Prop := ∀ s, I s → I (snd (m s)).

(** A direct call of the private [_single]. *)
Definition is_single (o : op) : bool :=
  match o with OpSingle _ => true | _ => false end.

(** A clock that shows the number of its readings. *)
Definition ticking : nat → Z := Z.of_nat.


(** ** Signals, and what a started executor keeps *)


(** The state after the call of a callable that raises. *)
Definition failed (s : St) : St :=
  mkSt (proc s) (with_trace (AInvoke (_next_time (me s)) :: trace (me s)) (me s)).

(** At most one event is pending, and it is the one of [_next_event], at
    the time of the cursor. *)
Definition orderly (e : Executor) : Prop :=
  _queue (_scheduler e) = [] ∨
  ∃ ev, _queue (_scheduler e) = [ev] ∧ _next_event e = Some ev ∧
        time ev = _next_time e.

(** The latest reading of the clock in a trace (newest first). *)
Fixpoint last_reading (tr : list action) : option Z :=
  match tr with
  | [] => None
  | ATime now :: _ => Some now
  | _ :: tr' => last_reading tr'
  end.

(** Every call in the trace (newest first) was made when the latest
    reading of the clock was not below its nominal time. *)
Fixpoint on_time (tr : list action) : Prop :=
  match tr with
  | [] => True
  | AInvoke t :: tr' => (∃ now, last_reading tr' = Some now ∧ t ≤ now) ∧ on_time tr'
  | _ :: tr' => on_time tr'
  end.

(** The nominal times of the calls in a trace, newest first. *)
Fixpoint nominals (tr : list action) : list Z :=
  match tr with
  | [] => []
  | AInvoke t :: tr' => t :: nominals tr'
  | _ :: tr' => nominals tr'
  end.

(** The first [m] values of a cursor that starts at [t0] and moves by
    additions of [p], the last one first. *)
Fixpoint countdown (t0 p : Z) (m : nat) : list Z :=
  match m with
  | O => []
  | S m' => fadd_n t0 p m' :: countdown t0 p m'
  end.

(** Since [run], whose trace before the call was [tr0]: the queue is
    orderly and no call was made before its nominal time. *)
Definition punctual (tr0 : list action) (s : St) : Prop :=
  orderly (me s) ∧ ∃ new, trace (me s) = new ++ tr0 ∧ on_time new.

(** Since [run] set the cursor to [t0], on an executor that does not skip
    and whose callable returns: the calls were made at [t0], [t0 + p],
    [t0 + p + p], ... in turn, and the cursor is one addition after the
    last. *)
Definition in_step (t0 p : Z) (tr0 : list action) (s : St) : Prop :=
  skip_missed (me s) = false ∧ period (me s) = p ∧
  (∀ k, func (me s) k = Returns) ∧
  ∃ (new : list action) (m : nat),
    trace (me s) = new ++ tr0 ∧
    nominals new = countdown t0 p m ∧
    _next_time (me s) = fadd_n t0 p m.

(** While the executor is not cancelled, an event is pending. *)
Definition armed_or_cancelled (s : St) : Prop :=
  _cancelled (me s) = false → _queue (_scheduler (me s)) ≠ [].

(** Each element is above the one after it. *)
Fixpoint descending {A} (lt : A → A → Prop) (l : list A) : Prop :=
  match l with
  | [] => True
  | x :: l' => (∀ y, head l' = Some y → lt y x) ∧ descending lt l'
  end.

(** Since [run] set the cursor to [t0], on an executor of period [p]: the
    queue is orderly; the calls were made at values of the cursor, the
    [k]-th value being [t0] after [k] additions of [p], for numbers [k]
    that went up from call to call; and the cursor is at a later value than
    the last call unless the queue is empty. *)
Definition advancing (t0 p : Z) (tr0 : list action) (s : St) : Prop :=
  period (me s) = p ∧ orderly (me s) ∧
  ∃ (new : list action) (ks : list nat) (c : nat),
    trace (me s) = new ++ tr0 ∧
    nominals new = map (fadd_n t0 p) ks ∧
    descending Nat.lt ks ∧
    _next_time (me s) = fadd_n t0 p c ∧
    ((∀ k, head ks = Some k → (k < c)%nat) ∨ _queue (_scheduler (me s)) = []).

(** * Proofs *)

(** Runs the straight-line part of a computation. *)
Ltac msimpl :=
  cbv beta iota zeta delta
    [mbind M_bind mret M_ret gets modify modify_proc log raise out_of_fuel];
  cbn [fst snd proc me].

Lemma bind_unfold {A B} (m : M A) (f : A → M B) (s : St) :
  (m ≫= f) s =
  match m s with
  | (Ok a, s') => f a s'
  | (Raise e, s') => (Raise e, s')
  | (OutOfFuel, s') => (OutOfFuel, s')
  end.
Proof. reflexivity. Qed.

(** ** Rounding to the nearest double *)

Lemma ulp_pos z : 0 < ulp z.
Proof. unfold ulp. apply Z.pow_pos_nonneg; lia. Qed.

Lemma nearest_even_cases a u :
  0 < u →
  (nearest_even a u = a / u * u ∨ nearest_even a u = (a / u + 1) * u) ∧
  (a mod u = 0 → nearest_even a u = a).
Proof.
  intros Hu. unfold nearest_even. split.
  - destruct (2 * (a mod u) <? u); [auto|].
    destruct (u <? 2 * (a mod u)); [auto|]. destruct (Z.even (a / u)); auto.
  - intros Hr. rewrite Hr. change (2 * 0) with 0.
    destruct (Z.ltb_spec 0 u); [|lia].
    pose proof (Z.div_mod a u ltac:(lia)) as Hd.
    rewrite Hr, Z.add_0_r, Z.mul_comm in Hd. symmetry. exact Hd.
Qed.

Lemma nearest_even_mono a b u :
  0 < u → a ≤ b → nearest_even a u ≤ nearest_even b u.
Proof.
  intros Hu Hab.
  pose proof (Z.div_mod a u ltac:(lia)) as Ha.
  pose proof (Z.div_mod b u ltac:(lia)) as Hb.
  pose proof (Z.mod_pos_bound a u Hu) as Hra.
  pose proof (Z.mod_pos_bound b u Hu) as Hrb.
  pose proof (Z.div_le_mono a b u Hu Hab) as Hq.
  destruct (Z.eq_dec (a / u) (b / u)) as [Heq|Hne].
  - unfold nearest_even. rewrite <- Heq.
    assert (a mod u ≤ b mod u) by nia.
    destruct (Z.ltb_spec (2 * (a mod u)) u), (Z.ltb_spec (2 * (b mod u)) u); try lia;
      destruct (Z.ltb_spec u (2 * (a mod u))), (Z.ltb_spec u (2 * (b mod u))); try lia;
      destruct (Z.even (a / u)); nia.
  - destruct (nearest_even_cases a u Hu) as [[-> | ->] _],
             (nearest_even_cases b u Hu) as [[-> | ->] _]; nia.
Qed.

Lemma nearest_even_lower a u : 0 < u → a / u * u ≤ nearest_even a u.
Proof. intros Hu. destruct (nearest_even_cases a u Hu) as [[-> | ->] _]; lia. Qed.

Lemma nearest_even_nonneg a u : 0 ≤ a → 0 < u → 0 ≤ nearest_even a u.
Proof.
  intros Ha Hu. etrans; [|apply nearest_even_lower, Hu].
  apply Z.mul_nonneg_nonneg; [apply Z.div_pos; lia | lia].
Qed.

Lemma bit_length_spec a : 0 < a → 2 ^ (bit_length a - 1) ≤ a < 2 ^ bit_length a.
Proof.
  intros Ha. unfold bit_length. rewrite Z.abs_eq by lia.
  replace (Z.log2 a + 1 - 1) with (Z.log2 a) by lia.
  replace (Z.log2 a + 1) with (Z.succ (Z.log2 a)) by lia.
  apply Z.log2_spec, Ha.
Qed.

Lemma bit_length_unique a k : 1 ≤ k → 2 ^ (k - 1) ≤ a < 2 ^ k → bit_length a = k.
Proof.
  intros Hk Ha. unfold bit_length.
  assert (0 < a) by (pose proof (Z.pow_pos_nonneg 2 (k - 1)); lia).
  rewrite Z.abs_eq by lia.
  rewrite (Z.log2_unique a (k - 1)); [lia | lia |].
  replace (Z.succ (k - 1)) with k by lia. exact Ha.
Qed.

Lemma bit_length_mono a b : 0 ≤ a ≤ b → bit_length a ≤ bit_length b.
Proof.
  intros H. unfold bit_length. rewrite !Z.abs_eq by lia.
  pose proof (Z.log2_le_mono a b ltac:(lia)). lia.
Qed.

Lemma bit_length_pos z : 1 ≤ bit_length z.
Proof. unfold bit_length. pose proof (Z.log2_nonneg (Z.abs z)). lia. Qed.

Lemma pow2_divide i j : 0 ≤ i ≤ j → (2 ^ i | 2 ^ j).
Proof.
  intros H. exists (2 ^ (j - i)). rewrite <- Z.pow_add_r by lia. f_equal. lia.
Qed.

Lemma ulp_abs z : ulp (Z.abs z) = ulp z.
Proof. unfold ulp, bit_length. rewrite Z.abs_idemp. reflexivity. Qed.

Lemma ulp_opp z : ulp (- z) = ulp z.
Proof. unfold ulp, bit_length. rewrite Z.abs_opp. reflexivity. Qed.

Lemma nearest_double_opp z : nearest_double (- z) = - nearest_double z.
Proof.
  unfold nearest_double. rewrite Z.sgn_opp, Z.abs_opp, ulp_opp. lia.
Qed.

Lemma nearest_double_nonneg a : 0 ≤ a → nearest_double a = nearest_even a (ulp a).
Proof.
  intros Ha. unfold nearest_double. rewrite Z.abs_eq by lia.
  destruct (Z.eq_dec a 0) as [->|Hne].
  - reflexivity.
  - rewrite Z.sgn_pos by lia. lia.
Qed.

(** The multiples of [ulp b] up to [b] are left as they are, or raised. *)
Lemma below_nearest a b :
  0 ≤ a ≤ b → a mod ulp a = 0 → a ≤ nearest_even b (ulp b).
Proof.
  intros Hab Ha.
  pose proof (ulp_pos b) as Hu.
  destruct (Z.eq_dec a 0) as [->|Hne].
  { apply nearest_even_nonneg; lia. }
  pose proof (bit_length_mono a b Hab) as Hbl.
  destruct (Z.eq_dec (bit_length a) (bit_length b)) as [Heq|Hlt].
  - assert (ulp a = ulp b) as Hua by (unfold ulp; rewrite Heq; reflexivity).
    rewrite Hua in Ha.
    destruct (nearest_even_cases a (ulp b) Hu) as [_ Hex].
    rewrite <- (Hex Ha) at 1. apply nearest_even_mono; lia.
  - pose proof (bit_length_spec a ltac:(lia)) as [_ Ha2].
    pose proof (bit_length_spec b ltac:(lia)) as [Hb1 _].
    pose proof (bit_length_pos b) as Hb0.
    assert (2 ^ bit_length a ≤ 2 ^ (bit_length b - 1)) as Hpow
      by (apply Z.pow_le_mono_r; lia).
    assert ((ulp b | 2 ^ (bit_length b - 1))) as [m Hm]
      by (unfold ulp; apply pow2_divide; lia).
    pose proof (nearest_even_lower b (ulp b) Hu) as Hlow.
    assert (m ≤ b / ulp b) by (apply Z.div_le_lower_bound; lia).
    nia.
Qed.

Lemma representable_multiple a : 0 ≤ a → representable a → a mod ulp a = 0.
Proof.
  intros Ha Hr. unfold representable in Hr. rewrite nearest_double_nonneg in Hr by exact Ha.
  pose proof (ulp_pos a) as Hu.
  destruct (nearest_even_cases a (ulp a) Hu) as [[H | H] _]; rewrite H in Hr.
  - rewrite <- Hr at 1. apply Z.mod_mul. lia.
  - rewrite <- Hr at 1. apply Z.mod_mul. lia.
Qed.

Lemma representable_opp z : representable z → representable (- z).
Proof. unfold representable. rewrite nearest_double_opp. lia. Qed.

(** Rounding does not pass a double. *)
Lemma nearest_double_le x y : representable x → y ≤ x → nearest_double y ≤ x.
Proof.
  intros Hx Hyx.
  destruct (Z.le_gt_cases 0 y) as [Hy|Hy].
  - rewrite nearest_double_nonneg by exact Hy.
    pose proof (representable_multiple x ltac:(lia) Hx) as Hm.
    pose proof (ulp_pos y) as Hu.
    assert (x mod ulp y = 0) as Hm'.
    { assert ((ulp y | ulp x)) as [c Hc].
      { unfold ulp. apply pow2_divide. pose proof (bit_length_mono y x ltac:(lia)). lia. }
      apply Z.mod_divide in Hm; [|pose proof (ulp_pos x); lia].
      destruct Hm as [d Hd]. apply Z.mod_divide; [lia|]. exists (d * c). lia. }
    destruct (nearest_even_cases x (ulp y) Hu) as [_ Hex].
    rewrite <- (Hex Hm'). apply nearest_even_mono; lia.
  - replace y with (- - y) by lia. rewrite nearest_double_opp.
    rewrite nearest_double_nonneg by lia.
    destruct (Z.le_gt_cases 0 x) as [Hx0|Hx0].
    + pose proof (nearest_even_nonneg (- y) (ulp (- y)) ltac:(lia) (ulp_pos _)). lia.
    + pose proof (below_nearest (- x) (- y) ltac:(lia)
                    (representable_multiple (- x) ltac:(lia) (representable_opp x Hx))).
      lia.
Qed.

Lemma nearest_even_representable a :
  0 ≤ a → nearest_even a (ulp a) mod ulp (nearest_even a (ulp a)) = 0.
Proof.
  intros Ha. pose proof (ulp_pos a) as Hu.
  destruct (Z.le_gt_cases (bit_length a) 53) as [Hsmall|Hbig].
  - assert (ulp a = 1) as H1 by (unfold ulp; rewrite Z.max_l by lia; reflexivity).
    destruct (nearest_even_cases a (ulp a) Hu) as [_ Hex].
    rewrite Hex by (rewrite H1; apply Z.mod_1_r).
    rewrite H1. apply Z.mod_1_r.
  - set (e := bit_length a - 53) in *.
    assert (ulp a = 2 ^ e) as He by (unfold ulp; rewrite Z.max_r by lia; reflexivity).
    assert (0 < a) as Hpos.
    { destruct (Z.eq_dec a 0) as [->|]; [|lia]. unfold bit_length in Hbig. simpl in Hbig. lia. }
    pose proof (bit_length_spec a Hpos) as [Hlo Hhi].
    replace (bit_length a - 1) with (52 + e) in Hlo by lia.
    replace (bit_length a) with (53 + e) in Hhi by lia.
    rewrite Z.pow_add_r in Hlo, Hhi by lia.
    assert (2 ^ 52 ≤ a / ulp a) as Hq1 by (apply Z.div_le_lower_bound; lia).
    assert (a / ulp a < 2 ^ 53) as Hq2 by (apply Z.div_lt_upper_bound; lia).
    rewrite He in *.
    assert (0 < 2 ^ e) as Hpe by lia.
    assert (∀ q, 2 ^ 52 ≤ q < 2 ^ 53 → (q * 2 ^ e) mod ulp (q * 2 ^ e) = 0) as Hin.
    { intros q Hq.
      assert (bit_length (q * 2 ^ e) = 53 + e) as Hbl.
      { apply bit_length_unique; [lia|].
        replace (53 + e - 1) with (52 + e) by lia.
        rewrite !Z.pow_add_r by lia. nia. }
      unfold ulp. rewrite Hbl, Z.max_r by lia.
      replace (53 + e - 53) with e by lia. apply Z.mod_mul. lia. }
    destruct (nearest_even_cases a (2 ^ e) Hpe) as [[-> | ->] _].
    + apply Hin. lia.
    + destruct (Z.eq_dec (a / 2 ^ e + 1) (2 ^ 53)) as [Htop|Hnot].
      * rewrite Htop. 
        assert (bit_length (2 ^ 53 * 2 ^ e) = 54 + e) as Hbl.
        { apply bit_length_unique; [lia|].
          replace (54 + e - 1) with (53 + e) by lia.
          rewrite !Z.pow_add_r by lia. 
          change (2 ^ 54) with (2 * 2 ^ 53). nia. }
        unfold ulp. rewrite Hbl, Z.max_r by lia.
        replace (54 + e - 53) with (e + 1) by lia.
        rewrite Z.pow_add_r by lia.
        change (2 ^ 53) with (2 ^ 52 * 2 ^ 1).
        replace (2 ^ 52 * 2 ^ 1 * 2 ^ e) with (2 ^ 52 * (2 ^ e * 2 ^ 1)) by lia.
        apply Z.mod_mul. lia.
      * apply Hin. lia.
Qed.

Lemma nearest_double_representable z : representable (nearest_double z).
Proof.
  assert (∀ a, 0 ≤ a → representable (nearest_double a)) as Hpos.
  { intros a Ha. unfold representable.
    rewrite (nearest_double_nonneg a Ha).
    pose proof (nearest_even_nonneg a (ulp a) Ha (ulp_pos a)).
    rewrite nearest_double_nonneg by lia.
    apply nearest_even_cases; [apply ulp_pos | apply nearest_even_representable, Ha]. }
  destruct (Z.le_gt_cases 0 z) as [Hz|Hz]; [apply Hpos, Hz|].
  replace z with (- - z) by lia. rewrite nearest_double_opp.
  apply representable_opp, Hpos. lia.
Qed.

Lemma small_representable z : Z.abs z < 2 ^ 53 → representable z.
Proof.
  intros Hz. unfold representable, nearest_double.
  assert (ulp z = 1) as ->.
  { unfold ulp. rewrite Z.max_l; [reflexivity|].
    unfold bit_length. destruct (Z.eq_dec (Z.abs z) 0) as [->|Hne]; [simpl; lia|].
    pose proof (Z.log2_lt_pow2 (Z.abs z) 53 ltac:(lia)). lia. }
  destruct (nearest_even_cases (Z.abs z) 1 ltac:(lia)) as [_ ->]; [|apply Z.mod_1_r].
  lia.
Qed.

Lemma fadd_exact x y : Z.abs (x + y) < 2 ^ 53 → fadd x y = x + y.
Proof. apply small_representable. Qed.

Lemma fadd_nonpositive x p : representable x → p ≤ 0 → fadd x p ≤ x.
Proof. intros Hx Hp. apply nearest_double_le; [exact Hx | lia]. Qed.

Lemma fadd_representable x y : representable (fadd x y).
Proof. apply nearest_double_representable. Qed.

Lemma fadd_n_shift x p k : fadd_n (fadd x p) p k = fadd_n x p (S k).
Proof. induction k as [|k IH]; simpl; [reflexivity|]. rewrite IH. reflexivity. Qed.

Lemma fadd_n_add x p i j : fadd_n (fadd_n x p i) p j = fadd_n x p (i + j).
Proof.
  induction j as [|j IH]; simpl.
  - rewrite Nat.add_0_r. reflexivity.
  - rewrite IH, Nat.add_succ_r. reflexivity.
Qed.

(** As long as no sum is rounded, [k] additions of [p] add [k * p]. *)
Lemma fadd_n_exact x p (k : nat) :
  (∀ j : nat, (j < k)%nat → fadd (x + Z.of_nat j * p) p = x + (Z.of_nat j + 1) * p) →
  fadd_n x p k = x + Z.of_nat k * p.
Proof.
  induction k as [|k IH]; intros Hex; simpl.
  - lia.
  - rewrite IH by (intros j Hj; apply Hex; lia).
    rewrite (Hex k) by lia. lia.
Qed.

(** ** Relations that every step of a computation respects *)

Section Preserves.
Context (R : relation St) `{!PreOrder R}.

Lemma preserves_ret {A} (a : A) : preserves R (mret a).
Proof. intros s. reflexivity. Qed.

Lemma preserves_raise {A} (e : exn) : preserves R (@raise A e).
Proof. intros s. reflexivity. Qed.

Lemma preserves_out_of_fuel {A} : preserves R (@out_of_fuel A).
Proof. intros s. reflexivity. Qed.

Lemma preserves_gets {A} (f : Executor → A) : preserves R (gets f).
Proof. intros s. reflexivity. Qed.

Lemma bind_at {A B} (m : M A) (f : A → M B) (s : St) :
  R s (snd (m s)) → (∀ a, preserves R (f a)) → R s (snd ((m ≫= f) s)).
Proof.
  intros Hm Hf. rewrite bind_unfold.
  destruct (m s) as [[a|e|] s']; simpl in *; auto.
  etrans; [exact Hm | apply Hf].
Qed.

Lemma preserves_bind {A B} (m : M A) (f : A → M B) :
  preserves R m → (∀ a, preserves R (f a)) → preserves R (m ≫= f).
Proof. intros Hm Hf s. apply bind_at; auto. Qed.

Lemma preserves_ignoring (m : M unit) :
  preserves R m → preserves R (ignoring_ValueError m).
Proof.
  intros Hm s. unfold ignoring_ValueError. specialize (Hm s).
  destruct (m s) as [[a|[]|] s']; simpl in *; auto.
Qed.
End Preserves.

(** One step through the syntax of a computation. *)
Ltac preserves_step :=
  lazymatch goal with
  | |- preserves _ (mbind _ _) => apply preserves_bind; [ exact _ | | intros ? ]
  | |- preserves _ (mret _) => apply preserves_ret; exact _
  | |- preserves _ (gets _) => apply preserves_gets; exact _
  | |- preserves _ (raise _) => apply preserves_raise; exact _
  | |- preserves _ out_of_fuel => apply preserves_out_of_fuel; exact _
  | |- preserves _ (ignoring_ValueError _) => apply preserves_ignoring
  | |- preserves _ (if ?b then _ else _) => destruct b
  | |- preserves _ (match ?x with _ => _ end) => destruct x
  end.

Section Steps.
Context (R : relation St) `{!PreOrder R} `{!Respects R}.

Local Ltac step := preserves_step.

Lemma preserves_time : preserves R time_time.
Proof. intros s. apply (@respects_time R _). Qed.

Lemma preserves_modify_proc f :
  (∀ p, clock (f p) = clock p) → preserves R (modify_proc f).
Proof. intros Hf s. apply (@respects_proc R _), Hf. Qed.

Lemma preserves_log a : is_invoke a = false → preserves R (log a).
Proof. intros Ha s. apply (@respects_log R _), Ha. Qed.

Lemma preserves_with_scheduler sc : preserves R (modify (with_scheduler sc)).
Proof. intros s. apply (@respects_scheduler R _). Qed.

Lemma preserves_with_next_event ev : preserves R (modify (with_next_event ev)).
Proof. intros s. apply (@respects_next_event R _). Qed.

Lemma preserves_with_thread t : preserves R (modify (with_thread t)).
Proof. intros s. apply (@respects_thread R _). Qed.

Lemma preserves_with_cancelled : preserves R (modify (with_cancelled true)).
Proof. intros s. apply (@respects_cancelled R _). Qed.

Lemma preserves_advance : preserves R advance.
Proof. intros s. apply (@respects_advance R _). Qed.

Lemma preserves_enterabs t prio : preserves R (enterabs t prio).
Proof. unfold enterabs. repeat step. apply preserves_with_scheduler. Qed.

Lemma preserves_scheduler_cancel ev : preserves R (scheduler_cancel ev).
Proof. unfold scheduler_cancel. repeat step. apply preserves_with_scheduler. Qed.

Lemma preserves_cancel_requested : preserves R cancel_requested.
Proof.
  unfold cancel_requested. repeat step.
  - apply preserves_with_cancelled.
  - apply preserves_scheduler_cancel.
  - apply preserves_modify_proc. reflexivity.
Qed.

Lemma preserves_sleep seconds : preserves R (_sleep seconds).
Proof.
  unfold _sleep, event_wait. repeat step.
  - apply preserves_log. reflexivity.
  - apply preserves_modify_proc. reflexivity.
  - apply preserves_cancel_requested.
Qed.

Lemma preserves_skip_missed_loop fuel : preserves R (skip_missed_loop fuel).
Proof.
  induction fuel as [|fuel IH]; simpl; repeat step;
    auto using preserves_time, preserves_advance.
Qed.

Lemma preserves_single fuel : preserves R (_single fuel).
Proof.
  intros s. unfold _single. rewrite bind_unfold. simpl.
  destruct (_cancelled (me s)) eqn:Hc; [reflexivity|].
  apply bind_at; [exact _ | apply (@respects_call R _), Hc | intros ?].
  repeat step;
    auto using preserves_advance, preserves_skip_missed_loop, preserves_enterabs,
      preserves_with_next_event.
Qed.

Lemma preserves_scheduler_run fuel n : preserves R (scheduler_run fuel n).
Proof.
  induction n as [|n IH]; simpl; repeat step;
    auto using preserves_time, preserves_sleep, preserves_with_scheduler,
      preserves_single.
Qed.

Lemma respects_mark_dead s : R s (mkSt (proc s) (mark_dead (me s))).
Proof.
  destruct s as [p e]. unfold mark_dead. simpl.
  destruct (_thread e); [apply (@respects_thread R _ (mkSt p e)) | reflexivity].
Qed.

Lemma preserves_thread_body fuel n : preserves R (thread_body fuel n).
Proof.
  intros s. unfold thread_body.
  pose proof (preserves_scheduler_run fuel n s) as H.
  destruct (scheduler_run fuel n s) as [[[]|e|] s']; simpl in *; auto;
    (etrans; [exact H | apply respects_mark_dead]).
Qed.

Lemma preserves_thread_join who t fuel n : preserves R (thread_join who t fuel n).
Proof. unfold thread_join. repeat step; apply preserves_thread_body. Qed.

Lemma preserves_background fuel n : preserves R (background fuel n).
Proof. unfold background. repeat step. apply preserves_thread_body. Qed.

Lemma preserves_cancel who fuel n : preserves R (cancel who fuel n).
Proof.
  unfold cancel. repeat step;
    auto using preserves_cancel_requested, preserves_thread_join.
Qed.

Lemma preserves_signal_handler signum fuel n :
  preserves R (_signal_handler signum fuel n).
Proof. unfold _signal_handler. repeat step. apply preserves_cancel. Qed.

Lemma preserves_thread_start : preserves R thread_start.
Proof.
  unfold thread_start. repeat step.
  - apply preserves_with_thread.
  - apply preserves_log. reflexivity.
Qed.

Lemma preserves_exec o : preserves R (exec o).
Proof.
  destruct o; simpl;
    auto using preserves_cancel, preserves_signal_handler, preserves_background,
      preserves_scheduler_run, preserves_single, preserves_sleep.
Qed.

Lemma preserves_exec_all ops s : R s (exec_all ops s).
Proof.
  revert s. induction ops as [|o ops IH]; intros s; simpl; [reflexivity|].
  etrans; [apply preserves_exec | apply IH].
Qed.
End Steps.

(** ** The cancellation flag *)

#[global] Instance stays_cancelled_preorder : PreOrder stays_cancelled.
Proof.
  split.
  - intros s H. auto.
  - intros s1 s2 s3 H12 H23 H. destruct (H12 H) as [H2 E2].
    destruct (H23 H2) as [H3 E3]. split; [exact H3 | congruence].
Qed.

#[global] Instance stays_cancelled_respects : Respects stays_cancelled.
Proof.
  split; unfold stays_cancelled, invocations; simpl; intros;
    try match goal with H : is_invoke _ = false |- _ => rewrite H end;
    try (split; [assumption || reflexivity | reflexivity]).
  congruence.
Qed.

(** ** The grid of nominal times *)

Lemma reached_refl t0 p : reached t0 p t0.
Proof. exists O. reflexivity. Qed.

Lemma reached_trans t0 p t1 t2 : reached t0 p t1 → reached t1 p t2 → reached t0 p t2.
Proof. intros [k1 ->] [k2 ->]. exists (k1 + k2)%nat. apply fadd_n_add. Qed.

#[global] Instance grid_step_preorder : PreOrder grid_step.
Proof.
  split.
  - intros s. split; [reflexivity|]. split; [apply reached_refl|].
    exists []. split; [reflexivity|]. intros t Ht. inversion Ht.
  - intros s1 s2 s3 (P12 & G12 & a12 & T12 & I12) (P23 & G23 & a23 & T23 & I23).
    rewrite P12 in *. split; [congruence|]. split; [eauto using reached_trans|].
    exists (a23 ++ a12). split; [rewrite T23, T12, app_assoc; reflexivity|].
    intros t Ht. apply elem_of_app in Ht as [Ht|Ht]; eauto using reached_trans.
Qed.

Local Ltac same_grid added :=
  split; [reflexivity|]; split; [apply reached_refl|];
  exists added; split; [reflexivity|].

#[global] Instance grid_step_respects : Respects grid_step.
Proof.
  split; unfold grid_step; simpl; intros.
  - same_grid (@nil action). intros x Hx. inversion Hx.
  - same_grid [ATime (clock (proc s) (reads (proc s)))].
    intros x Hx. apply list_elem_of_singleton in Hx. discriminate.
  - same_grid [a]. intros x Hx. apply list_elem_of_singleton in Hx. subst a. discriminate.
  - same_grid (@nil action). intros x Hx. inversion Hx.
  - same_grid (@nil action). intros x Hx. inversion Hx.
  - same_grid (@nil action). intros x Hx. inversion Hx.
  - same_grid (@nil action). intros x Hx. inversion Hx.
  - split; [reflexivity|]. split; [exists 1%nat; reflexivity|].
    exists []. split; [reflexivity|]. intros x Hx. inversion Hx.
  - unfold call_func. msimpl.
    destruct (func (me s) (invocations (me s))); simpl;
      same_grid [AInvoke (_next_time (me s))];
      intros x Hx; apply list_elem_of_singleton in Hx; injection Hx as ->;
      apply reached_refl.
Qed.

(** ** Closed forms of the straight-line methods *)

Lemma cancel_requested_eq s : cancel_requested s = (Ok tt, requested s).
Proof.
  unfold cancel_requested, requested, scheduler_cancel, ignoring_ValueError.
  msimpl. simpl.
  destruct (_next_event (me s)) as [ev|]; [|reflexivity].
  msimpl. simpl. destruct (queue_remove ev _); reflexivity.
Qed.

Lemma thread_start_eq s : thread_start s = (Ok tt, started s).
Proof. reflexivity. Qed.

Lemma run_delayed_eq d fuel n s :
  run (Some d) false fuel n s = (Ok tt, started (scheduled d s)).
Proof. reflexivity. Qed.

(** ** C6: the cancellation flag *)

Lemma cancel_sets_flag who fuel n s :
  _cancelled (me (snd (cancel who fuel n s))) = true.
Proof.
  unfold cancel. rewrite bind_unfold, cancel_requested_eq.
  assert (preserves stays_cancelled
            (th ← gets _thread;
             match th with
             | Some t => thread_join who t fuel n
             | None => mret tt
             end)) as H.
  { repeat preserves_step. apply preserves_thread_join; exact _. }
  apply (H (requested s)). reflexivity.
Qed.

(** C6, as stated: the flag goes from false to true only.  After [cancel]
    the flag is set; a later [run] clears it and the callable is called
    again. *)
Lemma C6_flag_reset_by_run :
  let s0 := idle (readings [] 0) in
  let s1 := snd (cancel MainThread 0 0 s0) in
  let s2 := snd (run None false 1 0 s1) in
  _cancelled (me s1) = true ∧ _cancelled (me s2) = false ∧
  invocations (me s2) = S (invocations (me s1)).
Proof. vm_compute. auto. Qed.

(** C6, amended: [cancel] sets the flag; once it is set, every step other
    than a call of [run] (calls of [cancel], signals, the background
    thread, the scheduler loop, [_single], [_sleep]) leaves it set and
    calls the callable no further; [run] clears it. *)
Theorem C6_flag_set_until_run (s : St) (ops : list op) :
  _cancelled (me s) = true →
  (_cancelled (me (exec_all ops s)) = true ∧
   invocations (me (exec_all ops s)) = invocations (me s)) ∧
  (∀ who fuel n, _cancelled (me (snd (cancel who fuel n s))) = true) ∧
  (∀ d fuel n, _cancelled (me (snd (run (Some d) false fuel n s))) = false).
Proof.
  intros H. split; [|split].
  - exact (preserves_exec_all stays_cancelled ops s H).
  - intros. apply cancel_sets_flag.
  - intros. rewrite run_delayed_eq. reflexivity.
Qed.

(** C6 at an executor that was started and cancelled. *)
Lemma C6_flag_set_until_run_witness :
  let s := snd (cancel MainThread 1 1 (snd (run (Some 5) false 0 0 (idle (readings [] 0))))) in
  let ops := [OpBackground 3 3; OpSingle 3; OpSignal SIGINT 3 3; OpSchedulerRun 3 3] in
  _cancelled (me s) = true ∧
  _cancelled (me (exec_all ops s)) = true ∧
  invocations (me (exec_all ops s)) = invocations (me s).
Proof.
  intros s ops. split; [reflexivity|].
  apply (C6_flag_set_until_run s ops). reflexivity.
Defined.

(** ** C4: construction *)

(** C4, as stated: a period that is not positive is refused at
    construction.  A period of -1 is accepted by the constructor and by
    [periodicx]. *)
Lemma C4_nonpositive_period_accepted :
  -1 ≤ 0 ∧
  fst (new MainThread fine (-1) true true never (boot (readings [] 0))) = Ok O ∧
  fst (periodicx MainThread fine (-1) (Some 0) false true true never 0 0
         (boot (readings [] 0)))
  = Ok (Some O).
Proof. split; [lia|]. split; vm_compute; reflexivity. Qed.

(** C4, amended: construction does not look at the period.  For every
    period, positive or not, it succeeds when [handle_sigint] is off or the
    caller is the main thread, and it fails with the [ValueError] of
    [signal.signal] when [handle_sigint] is on and the caller is another
    thread.  It calls nothing, reads no clock, enters no event and starts no
    thread; outside the new object it changes the disposition of SIGINT
    only, and only when it succeeds with [handle_sigint] on. *)
Theorem C4_construction_ignores_the_period (w : World) (who : caller)
    (f : nat → behaviour) (per : Z) (handle_sigint skip : bool) (intr : nat → bool) :
  let self := fresh (dom (heap w)) in
  ∃ e : Executor,
    new who f per handle_sigint skip intr w
    = (if handle_sigint
       then match who with
            | MainThread =>
                (Ok self, mkWorld (with_sigint (Some self) (process w))
                            (<[self := e]> (heap w)))
            | Worker _ =>
                (Raise ValueError, mkWorld (process w) (<[self := e]> (heap w)))
            end
       else (Ok self, mkWorld (process w) (<[self := e]> (heap w)))) ∧
    heap w !! self = None ∧
    period e = per ∧ trace e = [] ∧ invocations e = O ∧
    _queue (_scheduler e) = [] ∧ _next_event e = None ∧
    _thread e = None ∧ _cancelled e = false.
Proof.
  intros self.
  exists (mkExecutor f per skip 0 None false None (mkScheduler [] O) [] intr).
  split; [destruct handle_sigint; [destruct who|]; reflexivity|].
  split; [|repeat split].
  apply not_elem_of_dom, is_fresh.
Qed.

(** The constructor on a thread that is not the main thread. *)
Example construction_off_the_main_thread :
  fst (new (Worker 0) fine 10 true true never (boot (readings [] 0))) = Raise ValueError ∧
  fst (new (Worker 0) fine 10 false true never (boot (readings [] 0))) = Ok O ∧
  fst (periodicx (Worker 0) fine 10 None false true true never 0 0 (boot (readings [] 0)))
  = Raise ValueError.
Proof. repeat split; vm_compute; reflexivity. Qed.

(** ** C3: what two instances share *)

(** A method call on one instance leaves the attributes of every other
    instance as they are. *)
Lemma call_frame {A} (a b : nat) (m : M A) (w w' : World) (r : outcome A) :
  a ≠ b → call a m w = Some (r, w') → heap w' !! b = heap w !! b.
Proof.
  intros Hab. unfold call. destruct (heap w !! a) as [e|]; simpl; [|discriminate].
  intros [= _ <-]. simpl. apply lookup_insert_ne, Hab.
Qed.

(** C3 at the failing input: the second executor waits in [_sleep], which
    clears the event; [cancel] on the first executor then sets the very
    event the second one waits on, although none of the attributes of the
    second executor changes. *)
Theorem C3_sleep_event_is_shared :
  ∃ w1 w2,
    call 1%nat (_sleep 100) two_executors = Some (Ok tt, w1) ∧
    _sleep_event (process w1) = false ∧
    call 0%nat (cancel MainThread 0 0) w1 = Some (Ok tt, w2) ∧
    _sleep_event (process w2) = true ∧
    heap w2 !! 1%nat = heap w1 !! 1%nat.
Proof.
  eexists _, _. split; [vm_compute; reflexivity|]. split; [reflexivity|].
  split; [vm_compute; reflexivity|]. split; reflexivity.
Qed.

(** ** The catch-up loop *)

Lemma clock_reads_shift clk r k :
  clock_reads clk r (S k) = clock_reads clk (S r) k ++ [ATime (clk r)].
Proof.
  induction k as [|k IH].
  - simpl. rewrite Nat.add_0_r. reflexivity.
  - change (clock_reads clk r (S (S k)))
      with (ATime (clk (r + S k)%nat) :: clock_reads clk r (S k)).
    rewrite IH. simpl. rewrite Nat.add_succ_r. reflexivity.
Qed.

Lemma count_clock_reads f clk r k :
  f = is_invoke ∨ f = is_sleep ∨ f = is_start →
  count_actions f (clock_reads clk r k) = O.
Proof.
  intros Hf. induction k as [|k IH]; simpl; [reflexivity|].
  destruct Hf as [->|[->| ->]]; simpl; exact IH.
Qed.

Lemma count_actions_app f tr1 tr2 :
  count_actions f (tr1 ++ tr2) = (count_actions f tr1 + count_actions f tr2)%nat.
Proof.
  induction tr1 as [|a tr1 IH]; simpl; [reflexivity|].
  destruct (f a); simpl; congruence.
Qed.

Lemma clock_reads_one clk r : clock_reads clk r 1 = [ATime (clk r)].
Proof. simpl. rewrite Nat.add_0_r. reflexivity. Qed.

Lemma clock_reads_zero clk r : clock_reads clk r 0 = [].
Proof. reflexivity. Qed.

#[local] Opaque clock_reads.

Lemma skip_missed_loop_step fuel s :
  skip_missed_loop (S fuel) s =
  let now := clock (proc s) (reads (proc s)) in
  let s1 := mkSt (with_reads (S (reads (proc s))) (proc s))
                 (with_trace (ATime now :: trace (me s)) (me s)) in
  if _next_time (me s) <? now then
    skip_missed_loop fuel
      (mkSt (proc s1) (with_next_time (fadd (_next_time (me s)) (period (me s))) (me s1)))
  else (Ok tt, s1).
Proof.
  simpl. unfold advance, time_time. msimpl. simpl.
  destruct (_next_time (me s) <? clock (proc s) (reads (proc s))); reflexivity.
Qed.

(** When the readings of the clock stay at or below [hi] and the cursor
    gets to [hi] within the budget, the loop ends, on the first value of
    the cursor that is not below the reading it is compared with. *)
Lemma skip_missed_loop_ends (fuel : nat) (hi : Z) : ∀ s : St,
  (∀ i, (i < fuel)%nat → clock (proc s) (reads (proc s) + i) ≤ hi) →
  (∃ k, (k < fuel)%nat ∧ hi ≤ fadd_n (_next_time (me s)) (period (me s)) k) →
  ∃ k : nat,
    skip_missed_loop fuel s = (Ok tt, skipped k s) ∧
    (k < fuel)%nat ∧
    clock (proc s) (reads (proc s) + k) ≤ fadd_n (_next_time (me s)) (period (me s)) k ∧
    ∀ j, (j < k)%nat →
      fadd_n (_next_time (me s)) (period (me s)) j < clock (proc s) (reads (proc s) + j).
Proof.
  induction fuel as [|fuel IH]; intros s Hclk (k0 & Hk0 & Hhi); [lia|].
  rewrite skip_missed_loop_step. cbv zeta.
  pose proof (Hclk O ltac:(lia)) as H0. rewrite Nat.add_0_r in H0.
  destruct (Z.ltb_spec (_next_time (me s)) (clock (proc s) (reads (proc s)))) as [Hlt|Hge].
  - destruct k0 as [|k0]; [simpl in Hhi; lia|].
    edestruct (IH (mkSt (with_reads (S (reads (proc s))) (proc s))
                 (with_next_time (fadd (_next_time (me s)) (period (me s)))
                    (with_trace (ATime (clock (proc s) (reads (proc s))) :: trace (me s)) (me s)))))
      as (k & Heq & Hk & Hstop & Hgo); simpl.
    + intros i Hi. specialize (Hclk (S i) ltac:(lia)).
      rewrite Nat.add_succ_r in Hclk. exact Hclk.
    + exists k0. split; [lia|]. rewrite fadd_n_shift. exact Hhi.
    + exists (S k). simpl in Heq. rewrite Heq. split; [|split; [lia|split]].
      * unfold skipped. simpl. f_equal. f_equal.
        -- unfold with_reads. simpl. f_equal. lia.
        -- unfold with_trace, with_next_time. simpl. f_equal.
           ++ apply (fadd_n_shift _ _ k).
           ++ rewrite (clock_reads_shift _ (reads (proc s)) (S k)).
              rewrite <- app_assoc. reflexivity.
      * simpl in Hstop. rewrite fadd_n_shift in Hstop.
        replace (reads (proc s) + S k)%nat with (S (reads (proc s) + k)) by lia.
        exact Hstop.
      * intros j Hj. destruct j as [|j].
        -- rewrite Nat.add_0_r. exact Hlt.
        -- simpl in Hgo. specialize (Hgo j ltac:(lia)). rewrite fadd_n_shift in Hgo.
           replace (reads (proc s) + S j)%nat with (S (reads (proc s) + j)) by lia.
           exact Hgo.
  - exists O. split; [|split; [lia|split]].
    + unfold skipped. rewrite clock_reads_one. f_equal. f_equal.
      unfold with_reads. f_equal. lia.
    + rewrite Nat.add_0_r. exact Hge.
    + intros j Hj. lia.
Qed.

(** ** Closed forms of [_single] and [run] *)

Lemma run_eq delay blocking fuel n s :
  run delay blocking fuel n s = first_run delay blocking fuel n (armed delay s).
Proof. destruct delay; reflexivity. Qed.

Lemma single_cancelled fuel s :
  _cancelled (me s) = true → _single fuel s = (Ok tt, s).
Proof. intros Hc. unfold _single. msimpl. rewrite Hc. reflexivity. Qed.

Lemma single_raises fuel s :
  _cancelled (me s) = false → func (me s) (invocations (me s)) = Raises →
  _single fuel s
  = (Raise CallableError,
     mkSt (proc s) (with_trace (AInvoke (_next_time (me s)) :: trace (me s)) (me s))).
Proof.
  intros Hc Hf. unfold _single, call_func. msimpl. rewrite Hc. msimpl.
  rewrite Hf. reflexivity.
Qed.

Lemma single_returns fuel s :
  _cancelled (me s) = false → func (me s) (invocations (me s)) = Returns →
  _single fuel s =
  if skip_missed (me s) then
    match skip_missed_loop fuel (called s) with
    | (Ok _, s') => (Ok tt, entered s')
    | (Raise e, s') => (Raise e, s')
    | (OutOfFuel, s') => (OutOfFuel, s')
    end
  else (Ok tt, entered (called s)).
Proof.
  intros Hc Hf. unfold _single, call_func, advance, enterabs. msimpl. rewrite Hc.
  msimpl. rewrite Hf. simpl. destruct (skip_missed (me s)); [|reflexivity].
  unfold called.
  destruct (skip_missed_loop fuel _) as [[[]|e|] s']; reflexivity.
Qed.

(** ** C1: the next fire time when missed runs are skipped *)

(** C1, as stated: the next fire time is the least grid point
    [t0 + k * period] above the previous one that is not below [now].  With
    a period of 0.1 and the cursor at 0, a call that returns at 1.0 leaves
    the cursor at 1.0999999999999999: ten additions of the period give
    0.9999999999999999, which is below the reading, so that the loop adds
    the period once more, although the grid point [0 + 10 * period] is not
    below the reading. *)
Lemma C1_rounded_sums_pass_the_grid_point :
  let p := double 7205759403792794 (-56) in
  let now := double 1 0 in
  let s := snd (__init__ MainThread 0 fine p false true never
                  (mkProcess (λ _, now) O false None)) in
  let s' := snd (_single 20 s) in
  fst (_single 20 s) = Ok tt ∧
  _next_time (me s) = 0 ∧
  _next_time (me s) < 0 + 10 * p ∧
  now ≤ 0 + 10 * p ∧
  0 + 10 * p < _next_time (me s') ∧
  _next_time (me s') = double 4953959590107545 (-52) ∧
  fadd_n 0 p 10 = double 9007199254740991 (-53).
Proof. vm_compute. repeat split; discriminate. Qed.

(** C1, amended.  On an executor with [skip_missed] set whose callable
    returns, [_single] makes one call and then adds the period to the
    cursor, once and then again for as long as the cursor is below the
    clock, which is read anew for every test: when the readings stay at or
    below [hi] and the additions get to [hi] within the budget, [_single]
    returns with the cursor on the first of these sums that is not below
    the reading it is compared with, [now], and the one event entered is
    there.  The sums are sums of doubles.  As long as none of them is
    rounded, and with a positive period and a clock that does not run
    backwards, the cursor is the least grid point above the previous
    nominal time that is not below [now]. *)
Theorem C1_skip_missed_next_fire_time (s : St) (fuel : nat) (hi : Z) :
  skip_missed (me s) = true →
  _cancelled (me s) = false →
  func (me s) (invocations (me s)) = Returns →
  (∀ i, (i < fuel)%nat → clock (proc s) (reads (proc s) + i) ≤ hi) →
  (∃ k, (k < fuel)%nat ∧ hi ≤ fadd_n (_next_time (me s)) (period (me s)) (S k)) →
  ∃ (s' : St) (k : nat) (ev : Event),
    _single fuel s = (Ok tt, s') ∧
    reads (proc s') = (reads (proc s) + S k)%nat ∧
    let prev := _next_time (me s) in
    let now := clock (proc s) (reads (proc s) + k) in
    let next := fadd_n prev (period (me s)) (S k) in
    _next_time (me s') = next ∧
    now ≤ next ∧
    (∀ j, (j < k)%nat →
       fadd_n prev (period (me s)) (S j) < clock (proc s) (reads (proc s) + j)) ∧
    (0 < period (me s) →
     (∀ i j, (i ≤ j)%nat → clock (proc s) i ≤ clock (proc s) j) →
     (∀ j : nat, (j ≤ k)%nat →
        fadd (prev + Z.of_nat j * period (me s)) (period (me s))
        = prev + (Z.of_nat j + 1) * period (me s)) →
     next = prev + (Z.of_nat k + 1) * period (me s) ∧
     prev < next ∧
     ∀ m : Z, prev < prev + m * period (me s) → now ≤ prev + m * period (me s) →
              next ≤ prev + m * period (me s)) ∧
    trace (me s')
    = clock_reads (clock (proc s)) (reads (proc s)) (S k)
      ++ AInvoke prev :: trace (me s) ∧
    invocations (me s') = S (invocations (me s)) ∧
    ev = mkEvent next 1 (_sequence_generator (_scheduler (me s))) ∧
    _next_event (me s') = Some ev ∧
    _queue (_scheduler (me s')) = heappush ev (_queue (_scheduler (me s))).
Proof.
  intros Hsm Hc Hf Hclk (k0 & Hk0 & Hhi).
  destruct (skip_missed_loop_ends fuel hi (called s)) as (k & Heq & Hk & Hstop & Hgo).
  { exact Hclk. }
  { exists k0. split; [exact Hk0|]. simpl. rewrite fadd_n_shift. exact Hhi. }
  simpl in Hstop, Hgo. rewrite fadd_n_shift in Hstop.
  assert (∀ j, (j < k)%nat →
            fadd_n (_next_time (me s)) (period (me s)) (S j)
            < clock (proc s) (reads (proc s) + j)) as Hgo'.
  { intros j Hj. rewrite <- fadd_n_shift. apply Hgo, Hj. }
  exists (entered (skipped k (called s))), k,
    (mkEvent (fadd_n (_next_time (me s)) (period (me s)) (S k)) 1
       (_sequence_generator (_scheduler (me s)))).
  split; [rewrite (single_returns fuel s Hc Hf), Hsm, Heq; reflexivity|].
  split; [reflexivity|]. cbv zeta.
  assert (_next_time (me (entered (skipped k (called s))))
          = fadd_n (_next_time (me s)) (period (me s)) (S k)) as Hnext
    by apply (fadd_n_shift _ _ k).
  split; [exact Hnext|]. split; [exact Hstop|]. split; [exact Hgo'|].
  split; [|split; [reflexivity|split; [|split; [|split]]]].
  - intros Hp Hmono Hex.
    assert (∀ j, (j ≤ S k)%nat →
              fadd_n (_next_time (me s)) (period (me s)) j
              = _next_time (me s) + Z.of_nat j * period (me s)) as Hsum.
    { intros j Hj. apply fadd_n_exact. intros i Hi. apply Hex. lia. }
    rewrite (Hsum (S k)) by lia.
    set (p := period (me s)) in *. set (prev := _next_time (me s)) in *.
    split; [lia|]. split; [nia|].
    intros m Hm Hnow.
    assert (0 < m * p) as Hmp by lia. assert (1 ≤ m) as Hm1 by nia.
    destruct k as [|k]; [nia|].
    specialize (Hgo' k ltac:(lia)). rewrite (Hsum (S k)) in Hgo' by lia.
    pose proof (Hmono (reads (proc s) + k)%nat (reads (proc s) + S k)%nat ltac:(lia))
      as Hle.
    assert (Z.of_nat (S k) * p < m * p) as Hlt by lia.
    assert (Z.of_nat (S k) < m) as Hlt' by nia.
    nia.
  - unfold invocations. simpl. rewrite count_actions_app, count_clock_reads by auto.
    reflexivity.
  - reflexivity.
  - rewrite <- Hnext. reflexivity.
  - rewrite <- Hnext. reflexivity.
Qed.

(** C1 at period 10, cursor 0 and a clock that shows 25: the next fire
    time is 30. *)
Lemma C1_skip_missed_next_fire_time_witness :
  let s := idle (λ _, 25) in
  ∃ (s' : St) (k : nat) (ev : Event),
    _single 4 s = (Ok tt, s') ∧
    reads (proc s') = (reads (proc s) + S k)%nat ∧
    let prev := _next_time (me s) in
    let now := clock (proc s) (reads (proc s) + k) in
    let next := fadd_n prev (period (me s)) (S k) in
    _next_time (me s') = next ∧
    now ≤ next ∧
    (∀ j, (j < k)%nat →
       fadd_n prev (period (me s)) (S j) < clock (proc s) (reads (proc s) + j)) ∧
    (0 < period (me s) →
     (∀ i j, (i ≤ j)%nat → clock (proc s) i ≤ clock (proc s) j) →
     (∀ j : nat, (j ≤ k)%nat →
        fadd (prev + Z.of_nat j * period (me s)) (period (me s))
        = prev + (Z.of_nat j + 1) * period (me s)) →
     next = prev + (Z.of_nat k + 1) * period (me s) ∧
     prev < next ∧
     ∀ m : Z, prev < prev + m * period (me s) → now ≤ prev + m * period (me s) →
              next ≤ prev + m * period (me s)) ∧
    trace (me s')
    = clock_reads (clock (proc s)) (reads (proc s)) (S k)
      ++ AInvoke prev :: trace (me s) ∧
    invocations (me s') = S (invocations (me s)) ∧
    ev = mkEvent next 1 (_sequence_generator (_scheduler (me s))) ∧
    _next_event (me s') = Some ev ∧
    _queue (_scheduler (me s')) = heappush ev (_queue (_scheduler (me s))).
Proof.
  intros s. apply (C1_skip_missed_next_fire_time s 4 25).
  - reflexivity.
  - reflexivity.
  - reflexivity.
  - intros i Hi. simpl. lia.
  - exists 2%nat. split; [lia|]. vm_compute. discriminate.
Defined.

(** The scenario of the specification, in tenths of a time unit: period
    1.0, delay 0, the first call takes 2.5.  The nominal times are 0 and
    then 3.0, not 1.0 or 2.0. *)
Example skip_missed_scenario :
  let s := snd (run (Some 0) true 4 4 (idle (readings [0; 0; 25; 25; 25; 25; 30; 31] 32))) in
  rev (filter (λ a, bool_decide (is_invoke a = true)) (trace (me s)))
  = [AInvoke 0; AInvoke 30].
Proof. vm_compute. reflexivity. Qed.

(** ** C2: the cursor moves by additions of the period *)

Lemma preserves_first_run (R : relation St) `{!PreOrder R} `{!Respects R}
    delay blocking fuel n :
  preserves R (first_run delay blocking fuel n).
Proof.
  unfold first_run. repeat preserves_step;
    auto using preserves_single, preserves_enterabs, preserves_with_next_event,
      preserves_scheduler_run, preserves_thread_start.
Qed.

(** From the moment [run] has set the cursor, the cursor and every nominal
    time of a call are reached from that first value by additions of the
    period. *)
Lemma grid_after_run delay blocking fuel n ops s :
  grid_step (armed delay s) (exec_all ops (snd (run delay blocking fuel n s))).
Proof.
  rewrite run_eq. etrans.
  - apply (preserves_first_run grid_step).
  - apply (preserves_exec_all grid_step).
Qed.

(** C2, as stated: every nominal time after [run] is on the grid
    [t0 + n * period].  With a period of 0.1 and [run] at 0, the calls are
    made at 0, 0.1, 0.2 and 0.30000000000000004, and the last of these is
    no whole multiple of the period. *)
Lemma C2_rounded_sums_leave_the_grid :
  let p := double 7205759403792794 (-56) in
  let s := snd (__init__ MainThread 0 fine p false false never
                  (mkProcess (readings [0] (double 1 0)) O false None)) in
  let s' := snd (run None true 0 3 s) in
  first_time None (clock (proc s) (reads (proc s))) = 0 ∧
  nominals (trace (me s'))
  = [double 5404319552844596 (-54); double 7205759403792794 (-55);
     double 7205759403792794 (-56); 0] ∧
  ¬ on_grid 0 p (double 5404319552844596 (-54)).
Proof.
  intros p s s'. split; [reflexivity|]. split; [vm_compute; reflexivity|].
  intros [k Hk].
  assert (double 5404319552844596 (-54) mod p = 0) as Hmod
    by (rewrite Hk, Z.add_0_l; apply Z.mod_mul; vm_compute; discriminate).
  vm_compute in Hmod. discriminate.
Qed.

(** C2, amended.  A call of [_single] adds the period to the cursor [k]
    times and does nothing else to it: [k] is 0 when the executor is
    cancelled or the callable raises, and at least 1 otherwise, exactly 1
    when [skip_missed] is off; the cursor is never set from the clock.
    Hence, after [run] has set the cursor to [t0], the clock reading plus
    the delay, the cursor and the nominal time of every call are reached
    from [t0] by additions of the period, whatever steps follow.  The
    additions are additions of doubles: [j] of them give [t0 + j * period]
    as long as no sum is rounded. *)
Theorem C2_cursor_moves_by_additions_of_the_period (s : St) (fuel n : nat)
    (delay : option Z) (blocking : bool) (ops : list op) :
  (∃ k : nat,
     _next_time (me (snd (_single fuel s)))
     = fadd_n (_next_time (me s)) (period (me s)) k ∧
     (_cancelled (me s) = true → k = O) ∧
     (func (me s) (invocations (me s)) = Raises → k = O) ∧
     (_cancelled (me s) = false → func (me s) (invocations (me s)) = Returns →
      (1 ≤ k)%nat ∧ (skip_missed (me s) = false → k = 1%nat))) ∧
  let t0 := first_time delay (clock (proc s) (reads (proc s))) in
  let s' := exec_all ops (snd (run delay blocking fuel n s)) in
  period (me s') = period (me s) ∧
  reached t0 (period (me s)) (_next_time (me s')) ∧
  (∃ added, trace (me s') = added ++ trace (me s) ∧
     ∀ t, AInvoke t ∈ added → reached t0 (period (me s)) t) ∧
  (∀ j : nat,
     (∀ i : nat, (i < j)%nat →
        fadd (t0 + Z.of_nat i * period (me s)) (period (me s))
        = t0 + (Z.of_nat i + 1) * period (me s)) →
     fadd_n t0 (period (me s)) j = t0 + Z.of_nat j * period (me s) ∧
     on_grid t0 (period (me s)) (fadd_n t0 (period (me s)) j)).
Proof.
  split.
  - destruct (_cancelled (me s)) eqn:Hc.
    { exists O. rewrite single_cancelled by exact Hc. simpl.
      repeat split; try discriminate. }
    destruct (func (me s) (invocations (me s))) eqn:Hf.
    2:{ exists O. rewrite single_raises by assumption. simpl.
        repeat split; try discriminate. }
    rewrite single_returns by assumption.
    destruct (skip_missed (me s)) eqn:Hsm.
    + destruct (preserves_skip_missed_loop grid_step fuel (called s))
        as (_ & [k Hk] & _).
      simpl in Hk. rewrite fadd_n_shift in Hk. exists (S k). split.
      * destruct (skip_missed_loop fuel (called s)) as [[[]|e|] s']; simpl in *; exact Hk.
      * repeat split; try discriminate. lia.
    + exists 1%nat. simpl. repeat split; try discriminate; lia.
  - cbv zeta.
    destruct (grid_after_run delay blocking fuel n ops s) as (Hp & Hg & added & Ht & Hi).
    simpl in Hp, Hg, Ht, Hi. split; [exact Hp|]. split; [exact Hg|]. split.
    + exists (added ++ [ATime (clock (proc s) (reads (proc s)))]).
      split; [rewrite Ht, <- app_assoc; reflexivity|].
      intros t Hin. apply elem_of_app in Hin as [Hin|Hin]; [auto|].
      apply list_elem_of_singleton in Hin. discriminate.
    + intros j Hex. rewrite (fadd_n_exact _ _ j Hex). split; [reflexivity|].
      exists j. reflexivity.
Qed.

(** ** The catch-up loop on any budget *)

Lemma looped_zero s : looped 0 0 s = s.
Proof.
  destruct s as [[clk r ev h] e]. destruct e. unfold looped, with_reads, with_trace,
    with_next_time. simpl. rewrite clock_reads_zero. simpl.
  f_equal; f_equal; lia.
Qed.

Lemma looped_step j a s :
  looped j a
    (mkSt (with_reads (S (reads (proc s))) (proc s))
       (with_next_time (fadd (_next_time (me s)) (period (me s)))
          (with_trace (ATime (clock (proc s) (reads (proc s))) :: trace (me s)) (me s))))
  = looped (S j) (S a) s.
Proof.
  unfold looped. simpl. f_equal.
  - unfold with_reads. simpl. f_equal. lia.
  - unfold with_trace, with_next_time. simpl. f_equal; [apply (fadd_n_shift _ _ a)|].
    rewrite (clock_reads_shift _ (reads (proc s)) j), <- app_assoc. reflexivity.
Qed.

Lemma skip_missed_loop_shape fuel : ∀ s,
  ∃ (j a : nat) (o : outcome unit),
    skip_missed_loop fuel s = (o, looped j a s) ∧ (o = Ok tt ∨ o = OutOfFuel).
Proof.
  induction fuel as [|fuel IH]; intros s.
  - exists O, O, OutOfFuel. rewrite looped_zero. split; [reflexivity | auto].
  - rewrite skip_missed_loop_step. cbv zeta.
    destruct (_next_time (me s) <? clock (proc s) (reads (proc s))).
    + edestruct IH as (j & a & o & Heq & Ho). simpl. rewrite Heq.
      exists (S j), (S a), o. rewrite <- looped_step. split; [reflexivity | exact Ho].
    + exists 1%nat, O, (Ok tt). split; [|auto].
      unfold looped. rewrite clock_reads_one. f_equal. f_equal.
      unfold with_reads. f_equal. lia.
Qed.

(** ** C10: the first call is made by [run] itself *)

(** C10.  [run(delay=None, blocking=False)] reads the clock and calls the
    callable at that nominal time before it does anything else.  If the
    call raises, [run] raises the same error and starts no thread.  If it
    returns, the thread is started after the call, once the catch-up loop
    has ended; the loop ends when [skip_missed] is off, and also when the
    additions of the period get beyond the readings of the clock within the
    budget. *)
Theorem C10_first_call_before_thread (s : St) (fuel n : nat) :
  let now := clock (proc s) (reads (proc s)) in
  let r := run None false fuel n s in
  let first := [AInvoke now; ATime now] ++ trace (me s) in
  (func (me s) (invocations (me s)) = Raises →
     fst r = Raise CallableError ∧
     trace (me (snd r)) = first ∧
     _thread (me (snd r)) = _thread (me s) ∧
     threads_started (me (snd r)) = threads_started (me s)) ∧
  (func (me s) (invocations (me s)) = Returns →
     invocations (me (snd r)) = S (invocations (me s)) ∧
     (∃ j,
        (fst r = Ok tt ∧
         trace (me (snd r))
         = AStart (threads_started (me s))
           :: clock_reads (clock (proc s)) (S (reads (proc s))) j ++ first ∧
         _thread (me (snd r)) = Some (mkThread (threads_started (me s)) true)) ∨
        (fst r = OutOfFuel ∧ skip_missed (me s) = true ∧
         trace (me (snd r))
         = clock_reads (clock (proc s)) (S (reads (proc s))) j ++ first ∧
         _thread (me (snd r)) = _thread (me s))) ∧
     (∀ hi (k : nat), (k < fuel)%nat →
        (∀ i, (i < fuel)%nat → clock (proc s) (S (reads (proc s)) + i) ≤ hi) →
        hi ≤ fadd_n now (period (me s)) (S k) →
        fst r = Ok tt)).
Proof.
  cbv zeta. rewrite run_eq. unfold first_run. rewrite bind_unfold.
  assert (_cancelled (me (armed None s)) = false) as Hc by reflexivity.
  split; intros Hf.
  - rewrite (single_raises fuel (armed None s) Hc Hf). repeat split.
  - rewrite (single_returns fuel (armed None s) Hc Hf). simpl skip_missed.
    destruct (skip_missed (me s)) eqn:Hsm.
    + destruct (skip_missed_loop_shape fuel (called (armed None s)))
        as (j & a & o & Heq & Ho).
      rewrite Heq. split; [|split].
      * destruct Ho as [-> | ->]; unfold invocations; simpl;
          rewrite count_actions_app, count_clock_reads by auto; reflexivity.
      * exists j. destruct Ho as [-> | ->]; [left | right]; [|repeat split].
        rewrite thread_start_eq. unfold started, threads_started. simpl.
        rewrite count_actions_app, count_clock_reads by auto. repeat split.
      * intros hi k0 Hk0 Hclk Hhi.
        destruct (skip_missed_loop_ends fuel hi (called (armed None s)))
          as (k & Heq' & _); simpl; [exact Hclk | |].
        { exists k0. split; [exact Hk0|]. rewrite fadd_n_shift. exact Hhi. }
        rewrite Heq' in Heq. injection Heq as <- _. reflexivity.
    + split; [reflexivity|]. split; [|reflexivity].
      exists O. left. rewrite clock_reads_zero, thread_start_eq. repeat split.
Qed.

(** ** C9: what [periodicx] returns *)



(** ** Traces only grow *)

#[global] Instance extends_preorder : PreOrder extends.
Proof.
  split.
  - intros s. exists []. reflexivity.
  - intros s1 s2 s3 [a12 H12] [a23 H23]. exists (a23 ++ a12).
    rewrite H23, H12, app_assoc. reflexivity.
Qed.

#[global] Instance extends_respects : Respects extends.
Proof.
  split; unfold extends; simpl; intros.
  - exists []. reflexivity.
  - exists [ATime (clock (proc s) (reads (proc s)))]. reflexivity.
  - exists [a]. reflexivity.
  - exists []. reflexivity.
  - exists []. reflexivity.
  - exists []. reflexivity.
  - exists []. reflexivity.
  - exists []. reflexivity.
  - unfold call_func. msimpl.
    exists [AInvoke (_next_time (me s))].
    destruct (func (me s) (invocations (me s))); reflexivity.
Qed.


(** ** Traces in chronological order *)






(** ** Closed forms of [_sleep] and of one turn of the scheduler loop *)

Lemma sleep_eq seconds s :
  _sleep seconds s =
  (Ok tt, if interrupts (me s) (sleeps (me s))
          then requested (asleep seconds s) else asleep seconds s).
Proof.
  unfold _sleep, event_wait. msimpl. simpl.
  destruct (interrupts (me s) (sleeps (me s))); [|reflexivity].
  apply cancel_requested_eq.
Qed.

Lemma scheduler_run_step fuel n s :
  scheduler_run fuel (S n) s =
  match _queue (_scheduler (me s)) with
  | [] => (Ok tt, s)
  | ev :: q' =>
      let now := clock (proc s) (reads (proc s)) in
      if now <? time ev then
        (_sleep (fsub (time ev) now);; scheduler_run fuel n) (read_clock s)
      else
        (_single fuel;; _sleep 0;; scheduler_run fuel n) (popped q' (read_clock s))
  end.
Proof.
  simpl. unfold time_time. msimpl.
  destruct (_queue (_scheduler (me s))) as [|ev q']; [reflexivity|].
  simpl. destruct (clock (proc s) (reads (proc s)) <? time ev); reflexivity.
Qed.

(** ** The first call of a delayed run *)

Lemma keeps_bind (I : St → Prop) {A B} (m : M A) (f : A → M B) :
  keeps I m → (∀ a, keeps I (f a)) → keeps I (m ≫= f).
Proof.
  intros Hm Hf s Hs. rewrite bind_unfold. specialize (Hm s Hs).
  destruct (m s) as [[a|e|] s']; simpl in *; auto. apply Hf, Hm.
Qed.
















(** ** C7: the first call, with and without a delay *)




Example delayed_run_scenario :
  let s := idle (readings [0; 2; 5; 30; 30; 30; 31] 32) in
  rev (trace (me (snd (run (Some 5) true 3 2 s))))
  = [ATime 0; ATime 2; ASleep 3; ATime 5; AInvoke 5;
     ATime 30; ATime 30; ATime 30; ASleep 0].
Proof. vm_compute. reflexivity. Qed.

(** ** C8: [cancel] returns *)


Lemma mark_dead_spec e :
  _cancelled (mark_dead e) = _cancelled e ∧
  invocations (mark_dead e) = invocations e ∧
  ∀ t, _thread (mark_dead e) = Some t →
    is_alive t = false ∧ ∃ t0, _thread e = Some t0 ∧ ident t = ident t0.
Proof.
  unfold mark_dead. destruct (_thread e) as [t0|] eqn:Hth.
  - split; [reflexivity|]. split; [reflexivity|].
    simpl. intros t1 [= <-]. simpl. eauto.
  - split; [reflexivity|]. split; [reflexivity|].
    intros t1 H1. rewrite Hth in H1. discriminate.
Qed.




(** [cancel] before [run], twice. *)
Example cancel_before_run :
  let r1 := cancel MainThread 0 0 (idle ticking) in
  let r2 := cancel MainThread 0 0 (snd r1) in
  fst r1 = Ok tt ∧ fst r2 = Ok tt ∧ invocations (me (snd r2)) = O.
Proof. vm_compute. auto. Qed.

(** ** C5: calling [run] twice *)

Lemma length_heappush ev q : length (heappush ev q) = S (length q).
Proof.
  induction q as [|x q IH]; simpl; [reflexivity|].
  destruct (event_ltb ev x); simpl; congruence.
Qed.

(** C5, as stated: a second [run] before any [cancel] is rejected.  Here it
    returns normally, with a second event entered and a second thread
    started. *)
Lemma C5_second_run_accepted :
  let s1 := snd (run (Some 5) false 0 0 (idle (readings [] 0))) in
  let r := run (Some 5) false 0 0 s1 in
  _cancelled (me s1) = false ∧ threads_started (me s1) = 1%nat ∧
  fst r = Ok tt ∧
  threads_started (me (snd r)) = 2%nat ∧
  length (_queue (_scheduler (me (snd r)))) = 2%nat.
Proof. vm_compute. repeat split. Qed.

(** C5, amended: [run] does not look at whether a loop is already active.
    Called with a delay and [blocking=False] it returns normally in every
    state: it clears the flag, sets the cursor to the clock reading plus
    the delay, enters one more event, starts one more thread, and calls
    nothing. *)
Theorem C5_run_starts_another_loop (s : St) (d : Z) (fuel n : nat) :
  ∃ s', run (Some d) false fuel n s = (Ok tt, s') ∧
    _cancelled (me s') = false ∧
    _next_time (me s') = fadd (clock (proc s) (reads (proc s))) d ∧
    length (_queue (_scheduler (me s'))) = S (length (_queue (_scheduler (me s)))) ∧
    threads_started (me s') = S (threads_started (me s)) ∧
    invocations (me s') = invocations (me s).
Proof.
  exists (started (scheduled d s)). split; [apply run_delayed_eq|].
  repeat split; simpl; auto using length_heappush.
Qed.

(** * Further properties *)

(** ** The four ways a call of [_single] ends *)

Lemma single_cases fuel s :
  (_cancelled (me s) = true ∧ _single fuel s = (Ok tt, s)) ∨
  (_cancelled (me s) = false ∧ func (me s) (invocations (me s)) = Raises ∧
   _single fuel s = (Raise CallableError, failed s)) ∨
  (_cancelled (me s) = false ∧ func (me s) (invocations (me s)) = Returns ∧
   skip_missed (me s) = false ∧
   _single fuel s = (Ok tt, entered (called s))) ∨
  (_cancelled (me s) = false ∧ func (me s) (invocations (me s)) = Returns ∧
   skip_missed (me s) = true ∧
   ∃ j a, _single fuel s = (Ok tt, entered (looped j a (called s))) ∨
          _single fuel s = (OutOfFuel, looped j a (called s))).
Proof.
  destruct (_cancelled (me s)) eqn:Hc; [left; auto using single_cancelled|].
  right. destruct (func (me s) (invocations (me s))) eqn:Hf.
  2:{ left. auto using single_raises. }
  right. rewrite (single_returns fuel s Hc Hf).
  destruct (skip_missed (me s)); [right | left; auto].
  repeat split. destruct (skip_missed_loop_shape fuel (called s))
    as (j & a & o & -> & [-> | ->]); eauto.
Qed.

(** ** Invariants of the scheduler loop *)

Section LoopInvariant.
Context (I : St → Prop).
Hypothesis I_read : ∀ s, I s → I (read_clock s).
Hypothesis I_asleep : ∀ s seconds, I s → I (asleep seconds s).
Hypothesis I_requested : ∀ s, I s → I (requested s).
Hypothesis I_dead : ∀ s, I s → I (mkSt (proc s) (mark_dead (me s))).
Hypothesis I_due : ∀ fuel s ev q',
  I s → _queue (_scheduler (me s)) = ev :: q' →
  time ev ≤ clock (proc s) (reads (proc s)) →
  I (snd (_single fuel (popped q' (read_clock s)))).

Lemma loop_keeps_sleep seconds : keeps I (_sleep seconds).
Proof.
  intros s Hs. rewrite sleep_eq. simpl.
  destruct (interrupts (me s) (sleeps (me s))); auto.
Qed.

Lemma loop_keeps_scheduler_run fuel n : keeps I (scheduler_run fuel n).
Proof.
  induction n as [|n IH]; intros s Hs; [exact Hs|].
  rewrite scheduler_run_step.
  destruct (_queue (_scheduler (me s))) as [|ev q'] eqn:Hq; [exact Hs|]. cbv zeta.
  destruct (Z.ltb_spec (clock (proc s) (reads (proc s))) (time ev)) as [Hlt|Hge].
  - apply (keeps_bind I); [apply loop_keeps_sleep | intros _; exact IH | auto].
  - rewrite bind_unfold.
    pose proof (I_due fuel s ev q' Hs Hq Hge) as Hx.
    destruct (_single fuel (popped q' (read_clock s))) as [[[]|e|] sx];
      simpl in Hx; [|exact Hx..].
    apply (keeps_bind I); [apply loop_keeps_sleep | intros _; exact IH | exact Hx].
Qed.

Lemma loop_keeps_thread_body fuel n : keeps I (thread_body fuel n).
Proof.
  intros s Hs. unfold thread_body.
  pose proof (loop_keeps_scheduler_run fuel n s Hs) as H.
  destruct (scheduler_run fuel n s) as [[[]|e|] s']; simpl in *; auto.
Qed.

Lemma loop_keeps_thread_join who t fuel n : keeps I (thread_join who t fuel n).
Proof.
  intros s Hs. unfold thread_join.
  destruct who as [|tid]; [|destruct (decide (tid = ident t)); [exact Hs|]];
    (destruct (is_alive t); [apply loop_keeps_thread_body|]; exact Hs).
Qed.

Lemma loop_keeps_background fuel n : keeps I (background fuel n).
Proof.
  intros s Hs. unfold background. msimpl.
  destruct (_thread (me s)) as [t|]; [|exact Hs].
  destruct (is_alive t); [apply loop_keeps_thread_body|]; exact Hs.
Qed.

Lemma loop_keeps_cancel who fuel n : keeps I (cancel who fuel n).
Proof.
  intros s Hs. unfold cancel. rewrite bind_unfold, cancel_requested_eq. msimpl.
  apply I_requested in Hs.
  destruct (_thread (me (requested s))) as [t|]; [|exact Hs].
  apply loop_keeps_thread_join, Hs.
Qed.

Lemma loop_keeps_signal_handler signum fuel n :
  keeps I (_signal_handler signum fuel n).
Proof.
  intros s Hs. unfold _signal_handler.
  destruct (signum =? SIGINT); [apply loop_keeps_cancel|]; exact Hs.
Qed.

Lemma loop_keeps_exec_all ops : ∀ s,
  forallb (λ o, negb (is_single o)) ops = true → I s → I (exec_all ops s).
Proof.
  induction ops as [|o ops IH]; intros s Hops Hs; [exact Hs|].
  simpl in Hops. apply andb_prop in Hops as [Ho Hops].
  simpl. apply IH; [exact Hops|].
  destruct o; simpl in *; try discriminate;
    first [ apply loop_keeps_cancel | apply loop_keeps_signal_handler
          | apply loop_keeps_background | apply loop_keeps_scheduler_run
          | apply loop_keeps_sleep ]; exact Hs.
Qed.
End LoopInvariant.

(** ** One pending event, and no call before its time *)

Lemma on_time_quiet added tr :
  count_actions is_invoke added = O → on_time tr → on_time (added ++ tr).
Proof.
  intros Hq Ht. induction added as [|a added IH]; simpl; [exact Ht|].
  destruct a; simpl in Hq; try discriminate; auto.
Qed.

Lemma punctual_quiet_step tr0 s s' added :
  punctual tr0 s →
  trace (me s') = added ++ trace (me s) →
  count_actions is_invoke added = O →
  _scheduler (me s') = _scheduler (me s) →
  _next_event (me s') = _next_event (me s) →
  _next_time (me s') = _next_time (me s) →
  punctual tr0 s'.
Proof.
  intros (Ho & new & Ht & Hon) Ha Hq Hsc Hne Hnt. split.
  - unfold orderly. rewrite Hsc, Hne, Hnt. exact Ho.
  - exists (added ++ new). split; [rewrite Ha, Ht, app_assoc; reflexivity|].
    apply on_time_quiet; assumption.
Qed.

Lemma punctual_requested tr0 s : punctual tr0 s → punctual tr0 (requested s).
Proof.
  intros (Ho & Hn). split; [|exact Hn]. left. unfold requested. simpl.
  destruct Ho as [Hq | (ev & Hq & Hne & _)].
  - rewrite Hq. destruct (_next_event (me s)); exact Hq.
  - rewrite Hne, Hq. simpl. rewrite decide_True by reflexivity. reflexivity.
Qed.

(** A call of [_single] on an empty queue, when the latest reading of the
    clock is not below the cursor. *)
Lemma punctual_single tr0 fuel s new now :
  _queue (_scheduler (me s)) = [] →
  trace (me s) = new ++ tr0 → on_time new →
  last_reading new = Some now → _next_time (me s) ≤ now →
  punctual tr0 (snd (_single fuel s)).
Proof.
  intros Hq Ht Hon Hlast Hnow.
  assert (on_time (AInvoke (_next_time (me s)) :: new)) as Hon' by (simpl; eauto).
  destruct (single_cases fuel s)
    as [[_ ->] | [(_ & _ & ->) | [(_ & _ & _ & ->) | (_ & _ & _ & j & a & [-> | ->])]]];
    simpl; unfold punctual, orderly; simpl; rewrite Hq, Ht.
  - split; [auto|]. eauto.
  - split; [auto|]. exists (AInvoke (_next_time (me s)) :: new). auto.
  - split; [right; eexists; repeat split|].
    exists (AInvoke (_next_time (me s)) :: new). auto.
  - split; [right; eexists; repeat split|].
    exists (clock_reads (clock (proc s)) (reads (proc s)) j
              ++ AInvoke (_next_time (me s)) :: new).
    split; [rewrite <- app_assoc; reflexivity|].
    apply on_time_quiet; [apply count_clock_reads; auto | exact Hon'].
  - split; [auto|].
    exists (clock_reads (clock (proc s)) (reads (proc s)) j
              ++ AInvoke (_next_time (me s)) :: new).
    split; [rewrite <- app_assoc; reflexivity|].
    apply on_time_quiet; [apply count_clock_reads; auto | exact Hon'].
Qed.

Lemma punctual_due tr0 fuel s ev q' :
  punctual tr0 s → _queue (_scheduler (me s)) = ev :: q' →
  time ev ≤ clock (proc s) (reads (proc s)) →
  punctual tr0 (snd (_single fuel (popped q' (read_clock s)))).
Proof.
  intros (Ho & new & Ht & Hon) Hq Hdue.
  destruct Ho as [Hq' | (ev' & Hq' & _ & Htime)]; rewrite Hq' in Hq; [discriminate|].
  injection Hq as <- <-.
  apply (punctual_single tr0 fuel _ (ATime (clock (proc s) (reads (proc s))) :: new)
           (clock (proc s) (reads (proc s)))); simpl; auto.
  - rewrite Ht. reflexivity.
  - lia.
Qed.

Lemma punctual_read tr0 s : punctual tr0 s → punctual tr0 (read_clock s).
Proof.
  intros H.
  apply (punctual_quiet_step tr0 s _ [ATime (clock (proc s) (reads (proc s)))]); auto.
Qed.

Lemma punctual_asleep tr0 s seconds : punctual tr0 s → punctual tr0 (asleep seconds s).
Proof. intros H. apply (punctual_quiet_step tr0 s _ [ASleep seconds]); auto. Qed.

Lemma punctual_dead tr0 s :
  punctual tr0 s → punctual tr0 (mkSt (proc s) (mark_dead (me s))).
Proof.
  intros H. apply (punctual_quiet_step tr0 s _ []); auto;
    unfold mark_dead; simpl; destruct (_thread (me s)); reflexivity.
Qed.

Lemma punctual_started tr0 s : punctual tr0 s → punctual tr0 (started s).
Proof.
  intros H.
  apply (punctual_quiet_step tr0 s _ [AStart (threads_started (me s))]); auto.
Qed.

Lemma punctual_after_run delay blocking fuel n ops s :
  _queue (_scheduler (me s)) = [] →
  forallb (λ o, negb (is_single o)) ops = true →
  punctual (trace (me s)) (exec_all ops (snd (run delay blocking fuel n s))).
Proof.
  intros Hq Hops.
  pose proof (punctual_read (trace (me s))) as Hread.
  pose proof (λ s0 seconds, punctual_asleep (trace (me s)) s0 seconds) as Hasleep.
  pose proof (punctual_requested (trace (me s))) as Hreq.
  pose proof (punctual_dead (trace (me s))) as Hdead.
  pose proof (punctual_due (trace (me s))) as Hdue.
  assert (∀ s0, punctual (trace (me s)) s0 →
            punctual (trace (me s))
              (snd ((if blocking then scheduler_run fuel n else thread_start) s0)))
    as Hrest.
  { intros s0 H0. destruct blocking.
    - apply (loop_keeps_scheduler_run _ Hread Hasleep Hreq Hdue), H0.
    - rewrite thread_start_eq. apply punctual_started, H0. }
  apply (loop_keeps_exec_all _ Hread Hasleep Hreq Hdead Hdue ops _ Hops).
  rewrite run_eq. unfold first_run. rewrite bind_unfold. destruct delay as [d|].
  - unfold enterabs. msimpl. simpl. rewrite Hq. simpl. apply Hrest.
    split; [right; eexists; repeat split|].
    exists [ATime (clock (proc s) (reads (proc s)))]. split; [reflexivity | exact I].
  - pose proof (punctual_single (trace (me s)) fuel (armed None s)
                  [ATime (clock (proc s) (reads (proc s)))]
                  (clock (proc s) (reads (proc s))) Hq eq_refl I eq_refl
                  ltac:(simpl; lia)) as Hx.
    destruct (_single fuel (armed None s)) as [[[]|e|] sx]; simpl in Hx;
      [apply Hrest|..]; exact Hx.
Qed.

(** X1.  From [run] on an executor whose queue is empty, through the
    scheduler loop, the background thread, calls of [cancel] and signals:
    at most one event is pending at any moment, and it is the event of
    [_next_event], at the time of the cursor. *)
Theorem X1_one_pending_event (s : St) (delay : option Z) (blocking : bool)
    (fuel n : nat) (ops : list op) :
  _queue (_scheduler (me s)) = [] →
  forallb (λ o, negb (is_single o)) ops = true →
  orderly (me (exec_all ops (snd (run delay blocking fuel n s)))).
Proof. intros Hq Hops. apply (punctual_after_run delay blocking fuel n ops s Hq Hops). Qed.

(** X1 at a non-blocking run whose thread makes three turns of the loop. *)
Lemma X1_one_pending_event_witness :
  orderly (me (exec_all [OpBackground 3 3]
                 (snd (run None false 3 0 (idle ticking))))).
Proof. apply X1_one_pending_event; reflexivity. Defined.

(** X2.  From [run] on an executor whose queue is empty, whatever the
    clock shows and whichever steps follow: every call of the callable is
    made when the latest reading of the clock is at or after the nominal
    time of the call. *)
Theorem X2_no_call_before_its_time (s : St) (delay : option Z) (blocking : bool)
    (fuel n : nat) (ops : list op) :
  _queue (_scheduler (me s)) = [] →
  forallb (λ o, negb (is_single o)) ops = true →
  ∃ new,
    trace (me (exec_all ops (snd (run delay blocking fuel n s))))
    = new ++ trace (me s) ∧
    on_time new.
Proof.
  intros Hq Hops.
  destruct (punctual_after_run delay blocking fuel n ops s Hq Hops) as [_ H].
  exact H.
Qed.

(** X2 at a run without a delay whose thread finds the second event due:
    the calls are at 0 and at 10, when the clock shows 0 and 10. *)
Lemma X2_no_call_before_its_time_witness :
  let s := idle (readings [0; 0; 10; 10] 10) in
  let s' := exec_all [OpBackground 3 2] (snd (run None false 3 0 s)) in
  (∃ new, trace (me s') = new ++ trace (me s) ∧ on_time new) ∧
  invocations (me s') = 2%nat.
Proof.
  intros s s'. split; [|reflexivity].
  apply (X2_no_call_before_its_time s None false 3 0 [OpBackground 3 2]); reflexivity.
Defined.

(** ** Without [skip_missed]: one call for every addition *)

Lemma nominals_quiet added tr :
  count_actions is_invoke added = O → nominals (added ++ tr) = nominals tr.
Proof.
  intros Hq. induction added as [|a added IH]; simpl; [reflexivity|].
  destruct a; simpl in Hq; try discriminate; auto.
Qed.

Lemma in_step_quiet_step t0 p tr0 s s' added :
  in_step t0 p tr0 s →
  trace (me s') = added ++ trace (me s) →
  count_actions is_invoke added = O →
  _next_time (me s') = _next_time (me s) →
  skip_missed (me s') = skip_missed (me s) →
  period (me s') = period (me s) →
  func (me s') = func (me s) →
  in_step t0 p tr0 s'.
Proof.
  intros (Hsm & Hp & Hf & new & m & Ht & Hn & Hnt) Ha Hq Hnt' Hsm' Hp' Hf'.
  split; [congruence|]. split; [congruence|]. split; [rewrite Hf'; exact Hf|].
  exists (added ++ new), m. split; [rewrite Ha, Ht, app_assoc; reflexivity|].
  split; [rewrite nominals_quiet; assumption | congruence].
Qed.

Lemma in_step_read t0 p tr0 s : in_step t0 p tr0 s → in_step t0 p tr0 (read_clock s).
Proof.
  intros H.
  apply (in_step_quiet_step t0 p tr0 s _ [ATime (clock (proc s) (reads (proc s)))]); auto.
Qed.

Lemma in_step_asleep t0 p tr0 s seconds :
  in_step t0 p tr0 s → in_step t0 p tr0 (asleep seconds s).
Proof. intros H. apply (in_step_quiet_step t0 p tr0 s _ [ASleep seconds]); auto. Qed.

Lemma in_step_requested t0 p tr0 s : in_step t0 p tr0 s → in_step t0 p tr0 (requested s).
Proof. intros H. apply (in_step_quiet_step t0 p tr0 s _ []); auto. Qed.

Lemma in_step_popped t0 p tr0 s q' : in_step t0 p tr0 s → in_step t0 p tr0 (popped q' s).
Proof. intros H. apply (in_step_quiet_step t0 p tr0 s _ []); auto. Qed.

Lemma in_step_dead t0 p tr0 s :
  in_step t0 p tr0 s → in_step t0 p tr0 (mkSt (proc s) (mark_dead (me s))).
Proof.
  intros H. apply (in_step_quiet_step t0 p tr0 s _ []); auto;
    unfold mark_dead; simpl; destruct (_thread (me s)); reflexivity.
Qed.

Lemma in_step_started t0 p tr0 s : in_step t0 p tr0 s → in_step t0 p tr0 (started s).
Proof.
  intros H.
  apply (in_step_quiet_step t0 p tr0 s _ [AStart (threads_started (me s))]); auto.
Qed.

(** A call of [_single] makes the next call of the sequence, or none. *)
Lemma in_step_single t0 p tr0 fuel s :
  in_step t0 p tr0 s → in_step t0 p tr0 (snd (_single fuel s)).
Proof.
  intros Hs. pose proof Hs as (Hsm & Hp & Hf & new & m & Ht & Hn & Hnt).
  destruct (single_cases fuel s)
    as [[_ ->] | [(_ & Hr & _) | [(_ & _ & _ & ->) | (_ & _ & Hsm' & _)]]];
    [exact Hs | rewrite Hf in Hr; discriminate | | congruence].
  split; [exact Hsm|]. split; [exact Hp|]. split; [exact Hf|].
  exists (AInvoke (_next_time (me s)) :: new), (S m). simpl.
  split; [rewrite Ht; reflexivity|]. split; [rewrite Hn, Hnt; reflexivity|].
  rewrite Hnt, Hp. reflexivity.
Qed.

Lemma in_step_exec_all t0 p tr0 ops : ∀ s,
  in_step t0 p tr0 s → in_step t0 p tr0 (exec_all ops s).
Proof.
  pose proof (in_step_read t0 p tr0) as Hread.
  pose proof (λ s0 seconds, in_step_asleep t0 p tr0 s0 seconds) as Hasleep.
  pose proof (in_step_requested t0 p tr0) as Hreq.
  pose proof (in_step_dead t0 p tr0) as Hdead.
  assert (∀ fuel s ev q', in_step t0 p tr0 s →
            _queue (_scheduler (me s)) = ev :: q' →
            time ev ≤ clock (proc s) (reads (proc s)) →
            in_step t0 p tr0 (snd (_single fuel (popped q' (read_clock s))))) as Hdue.
  { intros fuel s ev q' Hs _ _. apply in_step_single, in_step_popped, Hread, Hs. }
  induction ops as [|o ops IH]; intros s Hs; [exact Hs|].
  simpl. apply IH. destruct o; simpl.
  - apply (loop_keeps_cancel _ Hread Hasleep Hreq Hdead Hdue), Hs.
  - apply (loop_keeps_signal_handler _ Hread Hasleep Hreq Hdead Hdue), Hs.
  - apply (loop_keeps_background _ Hread Hasleep Hreq Hdead Hdue), Hs.
  - apply (loop_keeps_scheduler_run _ Hread Hasleep Hreq Hdue), Hs.
  - apply in_step_single, Hs.
  - apply (loop_keeps_sleep _ Hasleep Hreq), Hs.
Qed.

(** X3.  On an executor that does not skip missed runs and whose callable
    returns, the calls made from [run] on follow the cursor step by step:
    the first has the nominal time [t0], the clock reading of [run] plus
    the delay, and each further call has the nominal time of the call
    before plus the period, a sum of doubles; no value of the cursor is
    left out, and the cursor is one addition after the last call.  This
    holds for every period, whatever the clock shows and whichever steps
    follow. *)
Theorem X3_without_skipping_one_call_per_addition (s : St) (delay : option Z)
    (blocking : bool) (fuel n : nat) (ops : list op) :
  skip_missed (me s) = false →
  (∀ k, func (me s) k = Returns) →
  let t0 := first_time delay (clock (proc s) (reads (proc s))) in
  let s' := exec_all ops (snd (run delay blocking fuel n s)) in
  ∃ (new : list action) (m : nat),
    trace (me s') = new ++ trace (me s) ∧
    nominals new = countdown t0 (period (me s)) m ∧
    _next_time (me s') = fadd_n t0 (period (me s)) m.
Proof.
  intros Hsm Hf. cbv zeta.
  set (t0 := first_time delay (clock (proc s) (reads (proc s)))).
  assert (in_step t0 (period (me s)) (trace (me s)) (armed delay s)) as Harmed.
  { split; [exact Hsm|]. split; [reflexivity|]. split; [exact Hf|].
    exists [ATime (clock (proc s) (reads (proc s)))], O. simpl.
    split; [reflexivity|]. split; reflexivity. }
  assert (in_step t0 (period (me s)) (trace (me s)) (snd (run delay blocking fuel n s)))
    as Hrun.
  { rewrite run_eq. unfold first_run. rewrite bind_unfold.
    assert (∀ s0, in_step t0 (period (me s)) (trace (me s)) s0 →
              in_step t0 (period (me s)) (trace (me s))
                (snd ((if blocking then scheduler_run fuel n else thread_start) s0)))
      as Hrest.
    { intros s0 H0. destruct blocking.
      - exact (in_step_exec_all _ _ _ [OpSchedulerRun fuel n] s0 H0).
      - rewrite thread_start_eq. apply in_step_started, H0. }
    destruct delay as [d|].
    - unfold enterabs. msimpl. apply Hrest.
      eapply (in_step_quiet_step _ _ _ _ _ []); [exact Harmed | reflexivity..].
    - pose proof (in_step_single _ _ _ fuel _ Harmed) as Hx.
      destruct (_single fuel (armed None s)) as [[[]|e|] sx]; simpl in Hx;
        [apply Hrest|..]; exact Hx. }
  destruct (in_step_exec_all _ _ _ ops _ Hrun) as (_ & _ & _ & new & m & H).
  exists new, m. exact H.
Qed.

(** X3 at a blocking run whose callable is late by more than two periods:
    the calls are at 0, 10, 20, 30. *)
Lemma X3_without_skipping_one_call_per_addition_witness :
  let s := snd (__init__ MainThread 0 fine 10 false false never
                  (mkProcess (readings [0; 0; 25; 25; 25] 32) O false None)) in
  let s' := exec_all [] (snd (run None true 0 5 s)) in
  ∃ (new : list action) (m : nat),
    trace (me s') = new ++ trace (me s) ∧
    nominals new = countdown 0 10 m ∧
    _next_time (me s') = fadd_n 0 10 m.
Proof.
  intros s.
  apply (X3_without_skipping_one_call_per_addition s None true 0 5 []); reflexivity.
Defined.

Example without_skipping_scenario :
  let s := snd (__init__ MainThread 0 fine 10 false false never
                  (mkProcess (readings [0; 0; 25; 25; 25] 32) O false None)) in
  nominals (trace (me (snd (run None true 0 5 s)))) = [30; 20; 10; 0].
Proof. vm_compute. reflexivity. Qed.

(** ** A blocking run ends by cancellation only *)

Lemma heappush_not_nil ev q : heappush ev q ≠ [].
Proof.
  intros H. pose proof (length_heappush ev q) as Hl. rewrite H in Hl. discriminate.
Qed.

Lemma armed_or_cancelled_sleep seconds s :
  armed_or_cancelled s → armed_or_cancelled (snd (_sleep seconds s)).
Proof.
  intros Hs. rewrite sleep_eq. simpl.
  destruct (interrupts (me s) (sleeps (me s))); [intros Hc; discriminate | exact Hs].
Qed.

Lemma armed_or_cancelled_entered s : armed_or_cancelled (entered s).
Proof. intros _. apply heappush_not_nil. Qed.

(** The loop returns only once the queue is empty, and an executor that is
    not cancelled has an event in its queue after every turn. *)
Lemma scheduler_run_returns fuel n : ∀ s,
  armed_or_cancelled s →
  fst (scheduler_run fuel n s) = Ok tt →
  _cancelled (me (snd (scheduler_run fuel n s))) = true ∧
  _queue (_scheduler (me (snd (scheduler_run fuel n s)))) = [].
Proof.
  induction n as [|n IH]; intros s Hs; [discriminate|].
  rewrite scheduler_run_step.
  destruct (_queue (_scheduler (me s))) as [|ev q'] eqn:Hq.
  - intros _. simpl. split; [|exact Hq].
    destruct (_cancelled (me s)) eqn:Hc; [reflexivity|]. destruct (Hs Hc Hq).
  - cbv zeta. destruct (_ <? _).
    + rewrite bind_unfold.
      pose proof (armed_or_cancelled_sleep (fsub (time ev) (clock (proc s) (reads (proc s))))
                    (read_clock s)) as Hsl.
      destruct (_sleep _ (read_clock s)) as [[[]|e|] s1] eqn:Hsleep;
        [|rewrite sleep_eq in Hsleep; discriminate..].
      apply IH, Hsl. intros Hc. simpl. rewrite Hq. discriminate.
    + rewrite bind_unfold.
      assert (∀ s1, armed_or_cancelled s1 →
                fst ((_sleep 0;; scheduler_run fuel n) s1) = Ok tt →
                _cancelled (me (snd ((_sleep 0;; scheduler_run fuel n) s1))) = true ∧
                _queue (_scheduler (me (snd ((_sleep 0;; scheduler_run fuel n) s1)))) = [])
        as Hrest.
      { intros s1 H1. rewrite bind_unfold.
        pose proof (armed_or_cancelled_sleep 0 s1 H1) as Hsl.
        destruct (_sleep 0 s1) as [[[]|e|] s2] eqn:Hsleep;
          [|rewrite sleep_eq in Hsleep; discriminate..].
        apply IH, Hsl. }
      destruct (single_cases fuel (popped q' (read_clock s)))
        as [[Hc ->] | [(_ & _ & ->) | [(_ & _ & _ & ->) | (_ & _ & _ & j & a & [-> | ->])]]];
        try discriminate.
      * apply Hrest. intros Hc'. simpl in Hc, Hc'. congruence.
      * apply Hrest, armed_or_cancelled_entered.
      * apply Hrest, armed_or_cancelled_entered.
Qed.

(** X4.  A blocking [run] that returns has been cancelled: when the call
    returns normally the flag [_cancelled] is set and no event is pending.
    While the executor is not cancelled, every call of the callable is
    followed by the entry of the next event, so the loop of the scheduler
    goes on. *)
Theorem X4_blocking_run_returns_when_cancelled (s : St) (delay : option Z)
    (fuel n : nat) :
  fst (run delay true fuel n s) = Ok tt →
  _cancelled (me (snd (run delay true fuel n s))) = true ∧
  _queue (_scheduler (me (snd (run delay true fuel n s)))) = [].
Proof.
  rewrite run_eq. unfold first_run. rewrite bind_unfold.
  destruct delay as [d|].
  - unfold enterabs. msimpl. apply scheduler_run_returns.
    intros _. apply heappush_not_nil.
  - destruct (single_cases fuel (armed None s))
      as [[Hc _] | [(_ & _ & ->) | [(_ & _ & _ & ->) | (_ & _ & _ & j & a & [-> | ->])]]];
      try discriminate;
      apply scheduler_run_returns, armed_or_cancelled_entered.
Qed.

(** X4 at a run with a delay of 5 whose first wait is interrupted by
    [cancel]. *)
Lemma X4_blocking_run_returns_when_cancelled_witness :
  let s := snd (__init__ MainThread 0 fine 10 true true (λ k, Nat.eqb k 0)
                  (mkProcess ticking O false None)) in
  _cancelled (me (snd (run (Some 5) true 3 4 s))) = true ∧
  _queue (_scheduler (me (snd (run (Some 5) true 3 4 s)))) = [].
Proof.
  intros s. apply (X4_blocking_run_returns_when_cancelled s (Some 5) 3 4).
  reflexivity.
Defined.

(** ** SIGINT and several executors *)



(** ** What the request of [cancel] leaves in the queue *)

Lemma orderly_requested s :
  orderly (me s) → _queue (_scheduler (me (requested s))) = [].
Proof.
  intros Ho. unfold requested. simpl.
  destruct Ho as [Hq | (ev & Hq & Hne & _)].
  - rewrite Hq. destruct (_next_event (me s)); exact Hq.
  - rewrite Hne, Hq. simpl. rewrite decide_True by reflexivity. reflexivity.
Qed.

(** ** A period that is not positive *)

Lemma skip_missed_loop_runs_on fuel : ∀ s,
  period (me s) ≤ 0 →
  representable (_next_time (me s)) →
  (∀ k, _next_time (me s) < clock (proc s) (reads (proc s) + k)%nat) →
  fst (skip_missed_loop fuel s) = OutOfFuel.
Proof.
  induction fuel as [|fuel IH]; intros s Hp Hrep Hclk; [reflexivity|].
  rewrite skip_missed_loop_step. cbv zeta.
  pose proof (Hclk O) as H0. rewrite Nat.add_0_r in H0.
  apply Z.ltb_lt in H0. rewrite H0.
  pose proof (fadd_nonpositive _ _ Hrep Hp) as Hle.
  apply IH; simpl; [exact Hp | apply fadd_representable |].
  intros k. specialize (Hclk (S k)). rewrite Nat.add_succ_r in Hclk. lia.
Qed.

(** X8.  With [skip_missed] and a period that is zero or negative, which
    the constructor accepts, [run] without a delay calls the callable once
    and then stays in the catch-up loop for good as long as the clock shows
    more than the reading of [run] plus the period: on every budget the call
    has not returned, and it has entered no event and started no thread. *)
Theorem X8_nonpositive_period_never_returns (s : St) (blocking : bool)
    (fuel n : nat) :
  skip_missed (me s) = true →
  func (me s) (invocations (me s)) = Returns →
  period (me s) ≤ 0 →
  (∀ k, fadd (clock (proc s) (reads (proc s))) (period (me s))
        < clock (proc s) (S (reads (proc s)) + k)%nat) →
  let r := run None blocking fuel n s in
  fst r = OutOfFuel ∧
  invocations (me (snd r)) = S (invocations (me s)) ∧
  _scheduler (me (snd r)) = _scheduler (me s) ∧
  threads_started (me (snd r)) = threads_started (me s).
Proof.
  intros Hsm Hf Hp Hclk. cbv zeta.
  rewrite run_eq. unfold first_run. rewrite bind_unfold.
  rewrite (single_returns fuel (armed None s) eq_refl Hf). simpl skip_missed. rewrite Hsm.
  pose proof (skip_missed_loop_runs_on fuel (called (armed None s)) Hp
                (fadd_representable _ _) Hclk) as Hloop.
  destruct (skip_missed_loop_shape fuel (called (armed None s)))
    as (j & a & o & Heq & _).
  rewrite Heq in Hloop |- *. simpl in Hloop. subst o. simpl.
  split; [reflexivity|].
  unfold invocations, threads_started. simpl. rewrite !count_actions_app.
  rewrite !count_clock_reads by auto. repeat split.
Qed.

(** X8 at a period of zero and a clock that goes up by one at every
    reading. *)
Lemma X8_nonpositive_period_never_returns_witness :
  let s := snd (__init__ MainThread 0 fine 0 true true never
                  (mkProcess ticking O false None)) in
  let r := run None true 5 5 s in
  fst r = OutOfFuel ∧
  invocations (me (snd r)) = S (invocations (me s)) ∧
  _scheduler (me (snd r)) = _scheduler (me s) ∧
  threads_started (me (snd r)) = threads_started (me s).
Proof.
  intros s. apply (X8_nonpositive_period_never_returns s true 5 5).
  - reflexivity.
  - reflexivity.
  - simpl. lia.
  - intros k. change (0 < Z.of_nat (S (0 + k))). lia.
Defined.

(** ** When the loop of the scheduler ends *)

Lemma punctual_keeps_sleep tr0 seconds s :
  punctual tr0 s → punctual tr0 (snd (_sleep seconds s)).
Proof.
  apply (loop_keeps_sleep _ (λ s0 sec, punctual_asleep tr0 s0 sec) (punctual_requested tr0)).
Qed.

(** The loop ends with an empty queue; the one error it can end with is
    the error of the callable, on an executor that is not cancelled. *)
Lemma scheduler_run_over tr0 fuel n : ∀ s,
  punctual tr0 s →
  fst (scheduler_run fuel n s) ≠ OutOfFuel →
  _queue (_scheduler (me (snd (scheduler_run fuel n s)))) = [] ∧
  ∀ e, fst (scheduler_run fuel n s) = Raise e →
    e = CallableError ∧ _cancelled (me (snd (scheduler_run fuel n s))) = false.
Proof.
  induction n as [|n IH]; intros s Hs; [intros H; destruct H; reflexivity|].
  rewrite scheduler_run_step.
  destruct (_queue (_scheduler (me s))) as [|ev q'] eqn:Hq.
  - intros _. split; [exact Hq | discriminate].
  - cbv zeta.
    assert (∀ seconds s1, punctual tr0 s1 →
              fst ((_sleep seconds;; scheduler_run fuel n) s1) ≠ OutOfFuel →
              _queue (_scheduler (me (snd ((_sleep seconds;; scheduler_run fuel n) s1)))) = [] ∧
              ∀ e, fst ((_sleep seconds;; scheduler_run fuel n) s1) = Raise e →
                e = CallableError ∧
                _cancelled (me (snd ((_sleep seconds;; scheduler_run fuel n) s1))) = false)
      as Hrest.
    { intros seconds s1 H1. rewrite bind_unfold.
      pose proof (punctual_keeps_sleep tr0 seconds s1 H1) as Hsl.
      destruct (_sleep seconds s1) as [[[]|e|] s2] eqn:Hsleep;
        [|rewrite sleep_eq in Hsleep; discriminate..].
      apply IH, Hsl. }
    destruct (Z.ltb_spec (clock (proc s) (reads (proc s))) (time ev)) as [Hlt|Hge].
    + apply Hrest, punctual_read, Hs.
    + rewrite bind_unfold.
      pose proof (punctual_due tr0 fuel s ev q' Hs Hq Hge) as Hx.
      assert (q' = []) as ->.
      { destruct Hs as [[Hq0 | (ev' & Hq1 & _)] _]; rewrite Hq in *; congruence. }
      destruct (single_cases fuel (popped [] (read_clock s)))
        as [[_ Heq] | [(Hc & _ & Heq) | [(_ & _ & _ & Heq)
                                        | (_ & _ & _ & j & a & [Heq | Heq])]]];
        rewrite Heq in Hx |- *; simpl in Hx.
      * apply Hrest, Hx.
      * intros _. split; [reflexivity|]. intros e [= <-]. split; [reflexivity | exact Hc].
      * apply Hrest, Hx.
      * apply Hrest, Hx.
      * intros H. destruct H. reflexivity.
Qed.

(** With nothing in the queue, no step other than [run] makes a call. *)
Lemma quiet_when_empty (k : nat) (ops : list op) : ∀ s,
  forallb (λ o, negb (is_single o)) ops = true →
  _queue (_scheduler (me s)) = [] ∧ invocations (me s) = k →
  _queue (_scheduler (me (exec_all ops s))) = [] ∧ invocations (me (exec_all ops s)) = k.
Proof.
  apply (loop_keeps_exec_all
           (λ s0, _queue (_scheduler (me s0)) = [] ∧ invocations (me s0) = k)).
  - intros s [Hq Hi]. split; [exact Hq | exact Hi].
  - intros s seconds [Hq Hi]. split; [exact Hq | exact Hi].
  - intros s [Hq Hi]. split; [|exact Hi].
    apply orderly_requested. left. exact Hq.
  - intros s [Hq Hi]. unfold mark_dead. simpl.
    destruct (_thread (me s)); split; assumption.
  - intros fuel s ev q' [Hq _] Hq'. rewrite Hq in Hq'. discriminate.
Qed.

(** What a blocking [run] comes to on an executor whose queue is empty. *)
Lemma run_blocking_cases delay fuel n s :
  _queue (_scheduler (me s)) = [] →
  (∃ s1, punctual (trace (me s)) s1 ∧
         run delay true fuel n s = scheduler_run fuel n s1) ∨
  (∃ s1, run delay true fuel n s = (Raise CallableError, s1) ∧
         _cancelled (me s1) = false ∧ _queue (_scheduler (me s1)) = []) ∨
  (∃ s1, run delay true fuel n s = (OutOfFuel, s1)).
Proof.
  intros Hq. rewrite run_eq. unfold first_run. rewrite bind_unfold.
  destruct delay as [d|].
  - left. eexists. split; [|unfold enterabs; msimpl; reflexivity].
    split.
    + simpl. rewrite Hq. simpl. right. eexists. repeat split.
    + exists [ATime (clock (proc s) (reads (proc s)))]. split; [reflexivity | exact I].
  - pose proof (punctual_single (trace (me s)) fuel (armed None s)
                  [ATime (clock (proc s) (reads (proc s)))]
                  (clock (proc s) (reads (proc s))) Hq eq_refl I eq_refl
                  ltac:(simpl; lia)) as Hx.
    destruct (single_cases fuel (armed None s))
      as [[_ Heq] | [(Hc & _ & Heq) | [(_ & _ & _ & Heq)
                                      | (_ & _ & _ & j & a & [Heq | Heq])]]];
      rewrite Heq in Hx |- *; simpl in Hx; eauto.
    right. left. eexists. split; [reflexivity|]. split; [exact Hc | exact Hq].
Qed.

(** X9.  When the callable raises during a blocking [run] on an executor
    whose queue was empty, [run] raises that error and no other; the
    executor is left with [_cancelled] unset and with no event pending, so
    the schedule is over: whichever steps follow, other than a new call of
    [run], the callable is not called again. *)
Theorem X9_error_of_the_callable_ends_the_schedule (s : St) (delay : option Z)
    (fuel n : nat) (e : exn) (ops : list op) :
  _queue (_scheduler (me s)) = [] →
  fst (run delay true fuel n s) = Raise e →
  forallb (λ o, negb (is_single o)) ops = true →
  let s' := snd (run delay true fuel n s) in
  e = CallableError ∧
  _cancelled (me s') = false ∧
  _queue (_scheduler (me s')) = [] ∧
  invocations (me (exec_all ops s')) = invocations (me s').
Proof.
  intros Hq Hr Hops s'.
  assert (e = CallableError ∧ _cancelled (me s') = false ∧
          _queue (_scheduler (me s')) = []) as (He & Hc & Hq').
  { unfold s'.
    destruct (run_blocking_cases delay fuel n s Hq)
      as [(s1 & H1 & Heq) | [(s1 & Heq & Hc & Hq1) | (s1 & Heq)]];
      rewrite Heq in Hr |- *.
    - destruct (scheduler_run_over _ fuel n s1 H1) as [Hq1 He];
        [rewrite Hr; discriminate|].
      destruct (He e Hr) as [-> Hc]. auto.
    - injection Hr as <-. auto.
    - discriminate. }
  split; [exact He|]. split; [exact Hc|]. split; [exact Hq'|].
  apply (quiet_when_empty (invocations (me s')) ops s' Hops). auto.
Qed.

(** X9 at a callable that raises at its first call. *)
Lemma X9_error_of_the_callable_ends_the_schedule_witness :
  let s := snd (__init__ MainThread 0 (λ _, Raises) 10 false true never
                  (mkProcess ticking O false None)) in
  let ops := [OpSchedulerRun 1 3; OpCancel MainThread 1 1] in
  let s' := snd (run None true 1 3 s) in
  CallableError = CallableError ∧
  _cancelled (me s') = false ∧
  _queue (_scheduler (me s')) = [] ∧
  invocations (me (exec_all ops s')) = invocations (me s').
Proof.
  intros s ops.
  apply (X9_error_of_the_callable_ends_the_schedule s None 1 3 CallableError ops);
    reflexivity.
Defined.

(** X10.  When the loop of the background thread ends, by a cancellation
    or by an error of the callable, which ends the thread and goes no
    further, the thread is no longer alive and no event is pending:
    whichever steps follow, other than a new call of [run], the callable is
    not called again. *)
Theorem X10_ended_thread_calls_no_more (s : St) (delay : option Z)
    (blocking : bool) (fuel n : nat) (before after : list op) (fuel' n' : nat) :
  _queue (_scheduler (me s)) = [] →
  forallb (λ o, negb (is_single o)) before = true →
  forallb (λ o, negb (is_single o)) after = true →
  let s1 := exec_all before (snd (run delay blocking fuel n s)) in
  let s2 := snd (thread_body fuel' n' s1) in
  fst (thread_body fuel' n' s1) = Ok tt →
  _queue (_scheduler (me s2)) = [] ∧
  (∀ t, _thread (me s2) = Some t → is_alive t = false) ∧
  invocations (me (exec_all after s2)) = invocations (me s2).
Proof.
  intros Hq Hbefore Hafter s1 s2 Hok.
  pose proof (punctual_after_run delay blocking fuel n before s Hq Hbefore) as H1.
  fold s1 in H1.
  pose proof (scheduler_run_over _ fuel' n' s1 H1) as Hover.
  assert (_queue (_scheduler (me s2)) = [] ∧
          ∀ t, _thread (me s2) = Some t → is_alive t = false) as [Hq2 Hdead].
  { unfold s2 in *. unfold thread_body in *.
    destruct (scheduler_run fuel' n' s1) as [[[]|e|] sx]; [| |discriminate];
      (destruct Hover as [Hqx _]; [discriminate|]); simpl in *;
      (split; [unfold mark_dead; destruct (_thread (me sx)); exact Hqx|]);
      intros t Ht; apply (mark_dead_spec (me sx)) in Ht as [Ht _]; exact Ht. }
  split; [exact Hq2|]. split; [exact Hdead|].
  apply (quiet_when_empty (invocations (me s2)) after s2 Hafter). auto.
Qed.

(** X10 at a thread whose callable raises at its first call. *)
Lemma X10_ended_thread_calls_no_more_witness :
  let s := snd (__init__ MainThread 0 (λ _, Raises) 10 false true never
                  (mkProcess ticking O false None)) in
  let s1 := exec_all [] (snd (run (Some 0) false 2 0 s)) in
  let s2 := snd (thread_body 2 2 s1) in
  _queue (_scheduler (me s2)) = [] ∧
  (∀ t, _thread (me s2) = Some t → is_alive t = false) ∧
  invocations (me (exec_all [OpBackground 2 2; OpCancel MainThread 2 2] s2))
  = invocations (me s2).
Proof.
  intros s.
  apply (X10_ended_thread_calls_no_more s (Some 0) false 2 0 []
           [OpBackground 2 2; OpCancel MainThread 2 2] 2 2); reflexivity.
Defined.

(** ** No value of the cursor twice *)

Lemma advancing_quiet_step t0 p tr0 s s' added :
  advancing t0 p tr0 s →
  trace (me s') = added ++ trace (me s) →
  count_actions is_invoke added = O →
  _scheduler (me s') = _scheduler (me s) →
  _next_event (me s') = _next_event (me s) →
  _next_time (me s') = _next_time (me s) →
  period (me s') = period (me s) →
  advancing t0 p tr0 s'.
Proof.
  intros (Hp & Ho & new & ks & c & Ht & Hn & Hd & Hnt & Hc) Ha Hq Hsc Hne Hnt' Hp'.
  split; [congruence|]. split.
  - unfold orderly. rewrite Hsc, Hne, Hnt'. exact Ho.
  - exists (added ++ new), ks, c. split; [rewrite Ha, Ht, app_assoc; reflexivity|].
    rewrite nominals_quiet by exact Hq. rewrite Hsc, Hnt'. auto.
Qed.

Lemma advancing_read t0 p tr0 s :
  advancing t0 p tr0 s → advancing t0 p tr0 (read_clock s).
Proof.
  intros H.
  apply (advancing_quiet_step t0 p tr0 s _ [ATime (clock (proc s) (reads (proc s)))]);
    auto.
Qed.

Lemma advancing_asleep t0 p tr0 s seconds :
  advancing t0 p tr0 s → advancing t0 p tr0 (asleep seconds s).
Proof. intros H. apply (advancing_quiet_step t0 p tr0 s _ [ASleep seconds]); auto. Qed.

Lemma advancing_dead t0 p tr0 s :
  advancing t0 p tr0 s → advancing t0 p tr0 (mkSt (proc s) (mark_dead (me s))).
Proof.
  intros H. apply (advancing_quiet_step t0 p tr0 s _ []); auto;
    unfold mark_dead; simpl; destruct (_thread (me s)); reflexivity.
Qed.

Lemma advancing_started t0 p tr0 s :
  advancing t0 p tr0 s → advancing t0 p tr0 (started s).
Proof.
  intros H.
  apply (advancing_quiet_step t0 p tr0 s _ [AStart (threads_started (me s))]); auto.
Qed.

Lemma advancing_requested t0 p tr0 s :
  advancing t0 p tr0 s → advancing t0 p tr0 (requested s).
Proof.
  intros (Hp & Ho & new & ks & c & Ht & Hn & Hd & Hnt & _).
  pose proof (orderly_requested s Ho) as Hq.
  split; [exact Hp|]. split; [left; exact Hq|].
  exists new, ks, c. repeat split; auto.
Qed.

(** A call of [_single] on an empty queue, with the cursor at a later
    value than the last call. *)
Lemma advancing_single t0 p tr0 fuel s new ks c :
  period (me s) = p →
  _queue (_scheduler (me s)) = [] →
  trace (me s) = new ++ tr0 →
  nominals new = map (fadd_n t0 p) ks →
  descending Nat.lt ks →
  _next_time (me s) = fadd_n t0 p c →
  (∀ k, head ks = Some k → (k < c)%nat) →
  advancing t0 p tr0 (snd (_single fuel s)).
Proof.
  intros Hp Hq Ht Hn Hd Hnt Hlast.
  assert (nominals (AInvoke (_next_time (me s)) :: new) = map (fadd_n t0 p) (c :: ks))
    as Hn' by (simpl; rewrite Hn, Hnt; reflexivity).
  assert (descending Nat.lt (c :: ks)) as Hd' by (simpl; auto).
  assert (∀ a : nat,
            fadd_n (fadd (_next_time (me s)) (period (me s))) (period (me s)) a
            = fadd_n t0 p (c + S a)) as Hcur.
  { intros a. rewrite fadd_n_shift, Hnt, Hp. apply fadd_n_add. }
  destruct (single_cases fuel s)
    as [[_ ->] | [(_ & _ & ->) | [(_ & _ & _ & ->) | (_ & _ & _ & j & a & [-> | ->])]]];
    simpl; unfold advancing, orderly; simpl; rewrite Hq, Ht.
  - split; [exact Hp|]. split; [auto|]. exists new, ks, c. repeat split; auto.
  - split; [exact Hp|]. split; [auto|].
    exists (AInvoke (_next_time (me s)) :: new), (c :: ks), c.
    split; [reflexivity|]. split; [exact Hn'|]. split; [exact Hd'|]. split; [exact Hnt | auto].
  - split; [exact Hp|]. split; [right; eexists; repeat split|].
    exists (AInvoke (_next_time (me s)) :: new), (c :: ks), (c + 1)%nat.
    split; [reflexivity|]. split; [exact Hn'|]. split; [exact Hd'|].
    split; [exact (Hcur O)|]. left. simpl. intros k [= <-]. lia.
  - split; [exact Hp|]. split; [right; eexists; repeat split|].
    exists (clock_reads (clock (proc s)) (reads (proc s)) j
              ++ AInvoke (_next_time (me s)) :: new), (c :: ks), (c + S a)%nat.
    split; [rewrite <- app_assoc; reflexivity|].
    rewrite nominals_quiet by (apply count_clock_reads; auto).
    split; [exact Hn'|]. split; [exact Hd'|].
    split; [exact (Hcur a)|]. left. simpl. intros k [= <-]. lia.
  - split; [exact Hp|]. split; [auto|].
    exists (clock_reads (clock (proc s)) (reads (proc s)) j
              ++ AInvoke (_next_time (me s)) :: new), (c :: ks), (c + S a)%nat.
    split; [rewrite <- app_assoc; reflexivity|].
    rewrite nominals_quiet by (apply count_clock_reads; auto).
    split; [exact Hn'|]. split; [exact Hd'|]. split; [exact (Hcur a) | auto].
Qed.

Lemma advancing_due t0 p tr0 fuel s ev q' :
  advancing t0 p tr0 s → _queue (_scheduler (me s)) = ev :: q' →
  advancing t0 p tr0 (snd (_single fuel (popped q' (read_clock s)))).
Proof.
  intros (Hp & Ho & new & ks & c & Ht & Hn & Hd & Hnt & Hc) Hq.
  assert (q' = []) as ->.
  { destruct Ho as [Hq0 | (ev' & Hq1 & _)]; rewrite Hq in *; congruence. }
  destruct Hc as [Hc | Hc]; [|rewrite Hq in Hc; discriminate].
  apply (advancing_single t0 p tr0 fuel _
           (ATime (clock (proc s) (reads (proc s))) :: new) ks c);
    simpl; auto.
  rewrite Ht. reflexivity.
Qed.

Lemma descending_map (f : nat → Z) (ks : list nat) :
  descending Nat.lt ks →
  (∀ i j, (i < j)%nat → j ∈ ks → f i < f j) →
  descending Z.lt (map f ks).
Proof.
  induction ks as [|x ks IH]; simpl; [auto|]. intros [Hx Hd] Hf. split.
  - destruct ks as [|y ks]; simpl; [discriminate|]. intros z [= <-].
    apply Hf; [apply Hx; reflexivity | left].
  - apply IH; [exact Hd|]. intros i j Hij Hj. apply Hf; [exact Hij | right; exact Hj].
Qed.

(** X12.  From [run] on an executor whose queue is empty, with or without
    [skip_missed] and whatever the period, the callable and the clock do:
    every call is made at a value of the cursor, the value number [k] being
    the first nominal time [t0] after [k] additions of the period, and the
    numbers [k] go up from each call to the next, so that no value of the
    cursor is served twice and none after a later one.  When, for the
    numbers that are served, adding the period does move the cursor up, the
    nominal times themselves go up from call to call. *)
Theorem X12_calls_go_up_the_grid (s : St) (delay : option Z) (blocking : bool)
    (fuel n : nat) (ops : list op) :
  _queue (_scheduler (me s)) = [] →
  forallb (λ o, negb (is_single o)) ops = true →
  let t0 := first_time delay (clock (proc s) (reads (proc s))) in
  let s' := exec_all ops (snd (run delay blocking fuel n s)) in
  ∃ (new : list action) (ks : list nat),
    trace (me s') = new ++ trace (me s) ∧
    nominals new = map (fadd_n t0 (period (me s))) ks ∧
    descending Nat.lt ks ∧
    ((∀ i j, (i < j)%nat → j ∈ ks →
        fadd_n t0 (period (me s)) i < fadd_n t0 (period (me s)) j) →
     descending Z.lt (nominals new)).
Proof.
  intros Hq Hops. cbv zeta.
  set (p := period (me s)) in *. set (tr0 := trace (me s)).
  set (t0 := first_time delay (clock (proc s) (reads (proc s)))).
  pose proof (advancing_read t0 p tr0) as Hread.
  pose proof (λ s0 seconds, advancing_asleep t0 p tr0 s0 seconds) as Hasleep.
  pose proof (advancing_requested t0 p tr0) as Hreq.
  pose proof (advancing_dead t0 p tr0) as Hdead.
  assert (∀ fuel0 s0 ev q', advancing t0 p tr0 s0 →
            _queue (_scheduler (me s0)) = ev :: q' →
            time ev ≤ clock (proc s0) (reads (proc s0)) →
            advancing t0 p tr0 (snd (_single fuel0 (popped q' (read_clock s0))))) as Hdue.
  { intros fuel0 s0 ev q' H0 Hq0 _. apply (advancing_due t0 p tr0 fuel0 s0 ev q' H0 Hq0). }
  assert (∀ s0, advancing t0 p tr0 s0 →
            advancing t0 p tr0
              (snd ((if blocking then scheduler_run fuel n else thread_start) s0)))
    as Hrest.
  { intros s0 H0. destruct blocking.
    - apply (loop_keeps_scheduler_run _ Hread Hasleep Hreq Hdue), H0.
    - rewrite thread_start_eq. apply advancing_started, H0. }
  assert (advancing t0 p tr0 (exec_all ops (snd (run delay blocking fuel n s)))) as Hall.
  { apply (loop_keeps_exec_all _ Hread Hasleep Hreq Hdead Hdue ops _ Hops).
    rewrite run_eq. unfold first_run. rewrite bind_unfold. destruct delay as [d|].
    - unfold enterabs. msimpl. simpl. rewrite Hq. simpl. apply Hrest.
      split; [reflexivity|]. split; [right; eexists; repeat split|].
      exists [ATime (clock (proc s) (reads (proc s)))], [], O.
      split; [reflexivity|]. split; [reflexivity|]. split; [exact I|].
      split; [reflexivity|]. left. simpl. discriminate.
    - pose proof (advancing_single t0 p tr0 fuel (armed None s)
                    [ATime (clock (proc s) (reads (proc s)))] [] O
                    eq_refl Hq eq_refl eq_refl I eq_refl
                    ltac:(simpl; discriminate)) as Hx.
      destruct (_single fuel (armed None s)) as [[[]|e|] sx]; simpl in Hx;
        [apply Hrest|..]; exact Hx. }
  destruct Hall as (_ & _ & new & ks & c & Ht & Hn & Hd & _).
  exists new, ks. split; [exact Ht|]. split; [exact Hn|]. split; [exact Hd|].
  intros Hup. rewrite Hn. apply descending_map; assumption.
Qed.

(** X12 at a blocking run that skips: the first call returns late, at 25,
    and the calls are at 0 and 30, the values number 0 and 3 of the
    cursor. *)
Lemma X12_calls_go_up_the_grid_witness :
  let s := snd (__init__ MainThread 0 fine 10 false true never
                  (mkProcess (readings [0; 25; 25; 25; 25; 31; 31] 31) O false None)) in
  let s' := exec_all [] (snd (run None true 5 2 s)) in
  (∃ (new : list action) (ks : list nat),
     trace (me s') = new ++ trace (me s) ∧
     nominals new = map (fadd_n 0 10) ks ∧
     descending Nat.lt ks ∧
     ((∀ i j, (i < j)%nat → j ∈ ks → fadd_n 0 10 i < fadd_n 0 10 j) →
      descending Z.lt (nominals new))) ∧
  nominals (trace (me s')) = [30; 0].
Proof.
  intros s s'. split; [|vm_compute; reflexivity].
  apply (X12_calls_go_up_the_grid s None true 5 2 []); reflexivity.
Defined.
